(** * ABC score-header compaction codec

    A shallow embedding of the encoder (cleaner.py, class ABCCleaner) and of
    the restoring decoder (mess.py, restore_text_simple), with the properties
    of the header/body splitter, the score grammar parser, the short-name
    broadcast, the first-line tag injector and the body probe.

    Text model.  A Python [str] is a list of characters; a character is an
    [ascii], read as a code point below 256 (the Latin-1 block of Unicode).
    The character classes below are Python's on that block.  A Python [int]
    is a [Z].  A call that raises is a [None]. *)

From Stdlib Require Import Ascii String ZArith List Bool Lia DecimalString.
From Stdlib Require DecimalPos.
From stdpp Require Import gmap strings list fin_maps.

Open Scope string_scope.
Open Scope Z_scope.
Open Scope list_scope.

Abbreviation text := (list ascii).

Definition txt (s : string) : text := list_ascii_of_string s.
Coercion txt : string >-> list.

(** ** Python's string primitives *)

Module Py.

Definition code (c : ascii) : Z := Z.of_N (N_of_ascii c).

Definition between (lo hi : Z) (c : ascii) : bool :=
  (lo <=? code c) && (code c <=? hi).

Definition is_code (n : Z) (c : ascii) : bool := code c =? n.

(** [str.isspace] on one character. *)
Definition isspace (c : ascii) : bool :=
  between 9 13 c || between 28 32 c || is_code 133 c || is_code 160 c.

(** [str.isalpha] on one character. *)
Definition isalpha (c : ascii) : bool :=
  between 65 90 c || between 97 122 c
  || is_code 170 c || is_code 181 c || is_code 186 c
  || between 192 214 c || between 216 246 c || between 248 255 c.

(** The decimal digits: [\d] of a [str] pattern, and what [int] reads. *)
Definition isdecimal (c : ascii) : bool := between 48 57 c.

(** [str.isdigit] on one character: the decimal digits and the superscripts
    one, two and three. *)
Definition isdigit (c : ascii) : bool :=
  isdecimal c || is_code 178 c || is_code 179 c || is_code 185 c.

(** [\w] of a [str] pattern: alphanumeric (the vulgar fractions are numeric)
    or underscore. *)
Definition isword (c : ascii) : bool :=
  isalpha c || isdigit c || between 188 190 c || is_code 95 c.

Definition is_ascii_letter (c : ascii) : bool :=
  between 65 90 c || between 97 122 c.

Definition is_lower_az (c : ascii) : bool := between 97 122 c.

Definition lower_char (c : ascii) : ascii :=
  if between 65 90 c || between 192 214 c || between 216 222 c
  then ascii_of_N (N_of_ascii c + 32)
  else c.

Definition lower (s : text) : text := map lower_char s.

Definition eqc (a b : ascii) : bool := Ascii.eqb a b.

Fixpoint eqt (a b : text) : bool :=
  match a, b with
  | [], [] => true
  | x :: a', y :: b' => eqc x y && eqt a' b'
  | _, _ => false
  end.

Fixpoint startswith (p s : text) : bool :=
  match p, s with
  | [], _ => true
  | x :: p', y :: s' => eqc x y && startswith p' s'
  | _ :: _, [] => false
  end.

Definition endswith (p s : text) : bool := startswith (rev p) (rev s).

(** [p in s]. *)
Fixpoint contains (p s : text) : bool :=
  startswith p s ||
  match s with
  | [] => false
  | _ :: s' => contains p s'
  end.

Fixpoint lstrip (s : text) : text :=
  match s with
  | c :: r => if isspace c then lstrip r else s
  | [] => []
  end.

Definition rstrip (s : text) : text := rev (lstrip (rev s)).

Definition strip (s : text) : text := rstrip (lstrip s).

(** The truth value of [ln.strip()]. *)
Definition nonblank (s : text) : bool :=
  match strip s with [] => false | _ => true end.

(** [s.replace(old, new)] for a non-empty [old]: leftmost occurrences, not
    overlapping.  [skip] counts the characters of a matched occurrence
    still to be passed over. *)
Fixpoint replace_go (old new : text) (skip : nat) (s : text) : text :=
  match s with
  | [] => []
  | c :: r =>
      match skip with
      | S k => replace_go old new k r
      | O =>
          if startswith old s
          then new ++ replace_go old new (length old - 1) r
          else c :: replace_go old new 0 r
      end
  end.

Definition replace (old new s : text) : text := replace_go old new 0 s.

(** [s.split(sep)] for a one-character separator. *)
Fixpoint split_char (sep : ascii) (s : text) : list text :=
  match s with
  | [] => [[]]
  | c :: r =>
      if eqc c sep then [] :: split_char sep r
      else match split_char sep r with
           | h :: t => (c :: h) :: t
           | [] => [[c]]
           end
  end.

(** [sep.join(parts)]. *)
Fixpoint join (sep : text) (parts : list text) : text :=
  match parts with
  | [] => []
  | [p] => p
  | p :: rest => p ++ sep ++ join sep rest
  end.

(** Longest prefix of characters satisfying [f], and the rest. *)
Fixpoint span (f : ascii -> bool) (s : text) : text * text :=
  match s with
  | c :: r => if f c then let (a, b) := span f r in (c :: a, b) else ([], s)
  | [] => ([], [])
  end.

(** [s.split()]: the maximal runs of non-whitespace characters. *)
Fixpoint split_ws_go (cur : text) (s : text) : list text :=
  match s with
  | [] => match cur with [] => [] | _ => [cur] end
  | c :: r =>
      if isspace c
      then match cur with [] => split_ws_go [] r | _ => cur :: split_ws_go [] r end
      else split_ws_go (cur ++ [c]) r
  end.

Definition split_ws (s : text) : list text := split_ws_go [] s.

(** [s.split(maxsplit=n)]: at most [n] splits; what is left after the
    [n]-th word keeps its trailing whitespace, and is dropped when empty. *)
Fixpoint split_ws_max (n : nat) (s : text) : list text :=
  match n with
  | O => match lstrip s with [] => [] | r => [r] end
  | S k =>
      match lstrip s with
      | [] => []
      | r => let (w, rest) := span (fun c => negb (isspace c)) r in
             w :: split_ws_max k rest
      end
  end.

(** The line boundaries of [str.splitlines] (below code point 256). *)
Definition islinebreak (c : ascii) : bool :=
  between 10 13 c || between 28 30 c || is_code 133 c.

(** [s.splitlines()]: a carriage return followed by a line feed is one
    boundary; no empty last line. *)
Fixpoint splitlines_go (cur : text) (s : text) : list text :=
  match s with
  | [] => match cur with [] => [] | _ => [cur] end
  | c :: r =>
      if islinebreak c then
        match r with
        | d :: r' =>
            if is_code 13 c && is_code 10 d
            then cur :: splitlines_go [] r'
            else cur :: splitlines_go [] r
        | [] => [cur]
        end
      else splitlines_go (cur ++ [c]) r
  end.

Definition splitlines (s : text) : list text := splitlines_go [] s.

(** Generic left-to-right scan of [re.sub] for a pattern that never matches
    the empty string: [m s] tells whether the pattern matches at the start
    of [s], and if so gives the replacement and the length of the match. *)
Fixpoint sub_go (m : text -> option (text * nat)) (skip : nat) (s : text) : text :=
  match s with
  | [] => []
  | c :: r =>
      match skip with
      | S k => sub_go m k r
      | O =>
          match m s with
          | Some (rep, n) => rep ++ sub_go m (n - 1) r
          | None => c :: sub_go m 0 r
          end
      end
  end.

Definition re_sub (m : text -> option (text * nat)) (s : text) : text :=
  sub_go m 0 s.

(** [rx.search(s)]: the match at the leftmost position that has one. *)
Fixpoint re_search {A : Type} (m : text -> option A) (s : text) : option A :=
  match m s with
  | Some x => Some x
  | None =>
      match s with
      | [] => None
      | _ :: r => re_search m r
      end
  end.

(** [int(s)] in base ten: surrounding whitespace, one sign, decimal digits
    with single underscores between them; anything else raises. *)
Definition digit_val (c : ascii) : Z := code c - 48.

Fixpoint int_digits (acc : Z) (after_digit : bool) (s : text) : option Z :=
  match s with
  | [] => if after_digit then Some acc else None
  | c :: r =>
      if isdecimal c then int_digits (10 * acc + digit_val c) true r
      else if is_code 95 c && after_digit then
        match r with
        | d :: _ => if isdecimal d then int_digits acc false r else None
        | [] => None
        end
      else None
  end.

Definition py_int (s : text) : option Z :=
  match strip s with
  | [] => None
  | c :: r =>
      if eqc c "-" then Z.opp <$> int_digits 0 false r
      else if eqc c "+" then int_digits 0 false r
      else int_digits 0 false (c :: r)
  end.

(** [str(n)]. *)
Definition str (n : Z) : text := txt (NilZero.string_of_int (Z.to_int n)).

(** [s.isdigit()]. *)
Definition str_isdigit (s : text) : bool :=
  match s with [] => false | _ => forallb isdigit s end.

(** [sorted] on a list of ints: insertion sort. *)
Fixpoint insert_sorted (x : Z) (l : list Z) : list Z :=
  match l with
  | [] => [x]
  | y :: l' => if x <? y then x :: l else y :: insert_sorted x l'
  end.

Fixpoint sorted (l : list Z) : list Z :=
  match l with
  | [] => []
  | x :: l' => insert_sorted x (sorted l')
  end.

(** An inline tag of letter [x]: an opening bracket, the letter, a colon, at
    least one character other than a closing bracket (group 1), a closing
    bracket.  Gives group 1 and the length of the match. *)
Definition tag_re (x : ascii) (s : text) : option (text * nat) :=
  if startswith ["["%char; x; ":"%char] s then
    let (body, r) := span (fun c => negb (eqc c "]")) (drop 3 s) in
    match body, r with
    | _ :: _, _ :: _ => Some (body, (3 + length body + 1)%nat)
    | _, _ => None
    end
  else None.

End Py.

Import Py.

Definition LF : ascii := "010"%char.
Definition CR : ascii := "013"%char.
Definition dq : ascii := "034"%char.

(** ** The encoder (cleaner.py) *)

Module Cleaner.

(** *** The regular expressions, each as a matcher at the start of a text

    [.] is any character but a line feed; [$] is the end of the text or the
    place before a last line feed. *)

Definition dot (c : ascii) : bool := negb (is_code 10 c).

(** Any characters up to the end: the group captured by dot-star before [$]. *)
Definition dot_star_end (r : text) : option text :=
  let (g, tl) := span dot r in
  match tl with
  | [] => Some g
  | [_] => Some g
  | _ => None
  end.

(** The same with at least one character (dot-plus before [$]). *)
Definition dot_plus_end (r : text) : option text :=
  match dot_star_end r with
  | Some (c :: g) => Some (c :: g)
  | _ => None
  end.

(** Whitespace, then dot-plus to the end; the whitespace is taken greedily
    and given back one character at a time when the rest does not match. *)
Fixpoint ws_dot_plus_end (r : text) : option text :=
  match r with
  | [] => None
  | c :: r' =>
      if isspace c then
        match ws_dot_plus_end r' with
        | Some g => Some g
        | None => dot_plus_end r
        end
      else dot_plus_end r
  end.

(** The pattern of _Q_RE, _M_RE and _K_RE, anchored at the start: the field
    letter [x], a colon, whitespace, then group 1 up to the end. *)
Definition field_re (x : ascii) (s : text) : option text :=
  if startswith [x; ":"%char] s then ws_dot_plus_end (drop 2 s) else None.

Definition _Q_RE : text -> option text := field_re "Q".
Definition _M_RE : text -> option text := field_re "M".
Definition _K_RE : text -> option text := field_re "K".

(** _SCORE_RE: the directive name, at least one whitespace character, then
    group 1 up to the end. *)
Definition _SCORE_RE (s : text) : option text :=
  if startswith "%%score" s then
    let (w, rest) := span isspace (drop 7 s) in
    match w with
    | [] => None
    | _ => dot_star_end rest
    end
  else None.

(** _V_RE: V and a colon, whitespace, the decimal digits of group 1, a word
    boundary, then group 2 up to the end. *)
Definition _V_RE (s : text) : option (text * text) :=
  if startswith "V:" s then
    let (_, r1) := span isspace (drop 2 s) in
    let (ds, r2) := span isdecimal r1 in
    match ds with
    | [] => None
    | _ =>
        let boundary := match r2 with [] => true | c :: _ => negb (isword c) end in
        if boundary then
          match dot_star_end r2 with
          | Some payload => Some (ds, payload)
          | None => None
          end
        else None
    end
  else None.

(** _V_TAGGED_SEG_RE: an opening bracket, V and a colon, whitespace, the
    decimal digits of group 1, a closing bracket.  Gives group 1 and the
    length of the match. *)
Definition _V_TAGGED_SEG_RE (s : text) : option (text * nat) :=
  if startswith "[V:" s then
    let (w, r1) := span isspace (drop 3 s) in
    let (ds, r2) := span isdecimal r1 in
    match ds, r2 with
    | _ :: _, c :: _ =>
        if eqc c "]" then Some (ds, (3 + length w + length ds + 1)%nat) else None
    | _, _ => None
    end
  else None.

Definition _ANY_Q_INLINE_RE : text -> option (text * nat) := tag_re "Q".

(** _V_INLINE_Q_RE: a voice marker (group 1), whitespace, a tempo tag
    (group 2).  Gives both groups and the length of the match. *)
Definition _V_INLINE_Q_RE (s : text) : option (text * text * nat) :=
  match _V_TAGGED_SEG_RE s with
  | Some (_, n) =>
      let (w, r1) := span isspace (drop n s) in
      match tag_re "Q" r1 with
      | Some (_, qn) => Some (take n s, take qn r1, (n + length w + qn)%nat)
      | None => None
      end
  | None => None
  end.

(** *** _shorten_clef *)

Definition _shorten_clef (t : text) : text := replace "treble" "treb" t.

(** *** _split_header_bars, _is_header *)

Definition _is_header (line : text) : bool :=
  let s := strip line in
  match s with
  | c0 :: c1 :: _ => (isalpha c0 && eqc c1 ":") || startswith "%%" s
  | _ => startswith "%%" s
  end.

Fixpoint split_header_loop (in_body : bool) (header body lines : list text)
  : list text * list text :=
  match lines with
  | [] => (header, body)
  | ln :: rest =>
      if negb in_body && _is_header ln
      then split_header_loop in_body (header ++ [ln]) body rest
      else split_header_loop true header (body ++ [ln]) rest
  end.

Definition _split_header_bars (lines : list text) : list text * list text :=
  split_header_loop false [] [] lines.

(** *** _pick_once *)

Fixpoint _pick_once (header : list text) (rx : text -> option text) : option text :=
  match header with
  | [] => None
  | ln :: rest =>
      match rx (strip ln) with
      | Some g => Some (strip g)
      | None => _pick_once rest rx
      end
  end.

(** *** Voice metadata, Python dicts

    [vmeta] is a dict from voice id to a dict of four entries: an association
    list in insertion order, each key once.  Assigning to a key that is
    present keeps its place. *)

Record VMeta := mkVMeta {
  clef : text;
  transpose : Z;
  nm : text;
  snm : text
}.

Fixpoint dict_get {V : Type} (k : Z) (d : list (Z * V)) : option V :=
  match d with
  | [] => None
  | (k', v) :: d' => if k =? k' then Some v else dict_get k d'
  end.

Fixpoint dict_set {V : Type} (k : Z) (v : V) (d : list (Z * V)) : list (Z * V) :=
  match d with
  | [] => [(k, v)]
  | (k', v') :: d' =>
      if k =? k' then (k, v) :: d' else (k', v') :: dict_set k v d'
  end.

Definition dict_keys {V : Type} (d : list (Z * V)) : list Z := map fst d.

(** The overrides of one percussion voice: the entries K and I of the inner
    dict, each absent or a list. *)
Record Perc := mkPerc {
  percK : option (list text);
  percI : option (list text)
}.

Definition perc_append_K (vid : Z) (v : text) (p : gmap Z Perc) : gmap Z Perc :=
  let e := default (mkPerc None None) (p !! vid) in
  <[vid := mkPerc (Some (default [] (percK e) ++ [v])) (percI e)]> p.

Definition perc_append_I (vid : Z) (v : text) (p : gmap Z Perc) : gmap Z Perc :=
  let e := default (mkPerc None None) (p !! vid) in
  <[vid := mkPerc (percK e) (Some (default [] (percI e) ++ [v]))]> p.

(** *** _parse_v_payload *)

(** The clef pattern at the start of a text: the word clef, whitespace, an
    equals sign, whitespace, ASCII letters (group 1), whitespace, and
    optionally a sign with decimal digits (group 2). *)
Definition clef_re (s : text) : option (text * text) :=
  if startswith "clef" s then
    let (_, r1) := span isspace (drop 4 s) in
    match r1 with
    | c :: r2 =>
        if eqc c "=" then
          let (_, r3) := span isspace r2 in
          let (base, r4) := span is_ascii_letter r3 in
          match base with
          | [] => None
          | _ =>
              let (_, r5) := span isspace r4 in
              match r5 with
              | sg :: r6 =>
                  if eqc sg "+" || eqc sg "-" then
                    let (ds, _) := span isdecimal r6 in
                    match ds with
                    | [] => Some (base, [])
                    | _ => Some (base, sg :: ds)
                    end
                  else Some (base, [])
              | [] => Some (base, [])
              end
          end
        else None
    | [] => None
    end
  else None.

(** The transpose pattern: the word transpose, whitespace, an equals sign,
    whitespace, an optional minus and decimal digits (group 1). *)
Definition transpose_re (s : text) : option text :=
  if startswith "transpose" s then
    let (_, r1) := span isspace (drop 9 s) in
    match r1 with
    | c :: r2 =>
        if eqc c "=" then
          let (_, r3) := span isspace r2 in
          let (sign, r4) :=
            match r3 with
            | m :: r' => if eqc m "-" then ([m], r') else ([], r3)
            | [] => ([], r3)
            end in
          let (ds, _) := span isdecimal r4 in
          match ds with
          | [] => None
          | _ => Some (sign ++ ds)
          end
        else None
    | [] => None
    end
  else None.

(** A quoted pair: the key, an equals sign, and group 1 between two double
    quotes. *)
Definition quoted_re (key : text) (s : text) : option text :=
  if startswith (key ++ "=" ++ [dq]) s then
    let (g, r) := span (fun c => negb (eqc c dq)) (drop (length key + 2) s) in
    match r with
    | _ :: _ => Some g
    | [] => None
    end
  else None.

Definition first_bare_token (toks : list text) : text :=
  match List.find (fun t => negb (existsb (eqc "=") t)) toks with
  | Some t => t
  | None => []
  end.

Definition _parse_v_payload (payload : text) : text * Z * text * text :=
  let toks := split_ws payload in
  let clef :=
    match re_search clef_re payload with
    | Some (base, octv) => lower base ++ octv
    | None => lower (first_bare_token toks)
    end in
  let transpose :=
    match re_search transpose_re payload with
    | Some g => match py_int g with Some n => n | None => 0 end
    | None => 0
    end in
  let nm :=
    match re_search (quoted_re "nm") payload with
    | Some g => strip g
    | None => []
    end in
  let snm :=
    match re_search (quoted_re "snm") payload with
    | Some g => strip g
    | None => []
    end in
  (clef, transpose, nm, snm).

(** *** _collect_v_and_percmap

    The loop state is [vmeta], [percussive_inline], [last_vid] and
    [last_is_perc].  The voice id is read by [int] with no handler. *)

Fixpoint collect_loop (vmeta : list (Z * VMeta)) (perc : gmap Z Perc)
    (last_vid : option Z) (last_is_perc : bool) (header : list text)
  : option (list (Z * VMeta) * gmap Z Perc) :=
  match header with
  | [] => Some (vmeta, perc)
  | ln :: rest =>
      match _V_RE (strip ln) with
      | Some (g1, g2) =>
          vid ← py_int g1;
          let '(clef, transpose, nm, snm) := _parse_v_payload (strip g2) in
          collect_loop (dict_set vid (mkVMeta clef transpose nm snm) vmeta) perc
            (Some vid) (eqt clef "perc") rest
      | None =>
          match _K_RE (strip ln), last_vid, last_is_perc with
          | Some g, Some lv, true =>
              let kval := strip g in
              if eqt (lower kval) "none"
              then collect_loop vmeta (perc_append_K lv "none" perc) last_vid last_is_perc rest
              else collect_loop vmeta perc last_vid last_is_perc rest
          | _, _, _ =>
              match last_vid, last_is_perc with
              | Some lv, true =>
                  if startswith "I:percmap" ln
                  then collect_loop vmeta (perc_append_I lv (strip ln) perc) last_vid last_is_perc rest
                  else collect_loop vmeta perc last_vid last_is_perc rest
              | _, _ => collect_loop vmeta perc last_vid last_is_perc rest
              end
          end
      end
  end.

Definition _collect_v_and_percmap (header : list text)
  : option (list (Z * VMeta) * gmap Z Perc) :=
  collect_loop [] ∅ None false header.

(** *** _score_tokenize

    [skip] counts the characters of a digit run already taken into a
    token. *)

Definition is_bracket (c : ascii) : bool :=
  eqc c "(" || eqc c ")" || eqc c "{" || eqc c "}" || eqc c "|".

Fixpoint score_tokenize_go (skip : nat) (body : text) : list text :=
  match body with
  | [] => []
  | c :: r =>
      match skip with
      | S k => score_tokenize_go k r
      | O =>
          if isspace c then score_tokenize_go 0 r
          else if is_bracket c then [c] :: score_tokenize_go 0 r
          else if isdigit c then
            let (ds, _) := span isdigit body in
            ds :: score_tokenize_go (length ds - 1) r
          else score_tokenize_go 0 r
      end
  end.

Definition _score_tokenize (body : text) : list text := score_tokenize_go 0 body.

(** *** _build_group_map

    A stack node has the opener it was pushed with, the rendered elements
    and the set of voice ids below it.  The head of the list is the top of
    the stack. *)

Record Node := mkNode {
  ntype : text;
  elems : list text;
  nums : gset Z
}.

(** One [m.setdefault(n, s)]. *)
Definition setdefault (n : Z) (s : text) (m : gmap Z text) : gmap Z text :=
  match m !! n with
  | Some _ => m
  | None => <[n := s]> m
  end.

(** [for n in nums: m.setdefault(n, s)]. *)
Definition setdefault_all (ns : gset Z) (s : text) (m : gmap Z text) : gmap Z text :=
  set_fold (fun n acc => setdefault n s acc) m ns.

Record GState := mkGState {
  stack : list Node;
  paren_map : gmap Z text;
  brace_map : gmap Z text
}.

(** [flush_group]: the rendered group, and the two maps after it. *)
Definition flush_group (node : Node) (pm bm : gmap Z text)
  : text * gmap Z text * gmap Z text :=
  if eqt (ntype node) "(" then
    let s := "(" ++ join "|" (elems node) ++ ")" in
    (s, setdefault_all (nums node) s pm, bm)
  else
    let s := "{" ++ join "|" (elems node) ++ "}" in
    (s, pm, setdefault_all (nums node) s bm).

(** One turn of the loop over the tokens. *)
Definition group_step (st : GState) (tk : text) : GState :=
  if eqt tk "(" || eqt tk "{" then
    mkGState (mkNode tk [] ∅ :: stack st) (paren_map st) (brace_map st)
  else if eqt tk ")" || eqt tk "}" then
    match stack st with
    | node :: rest =>
        let '(s, pm, bm) := flush_group node (paren_map st) (brace_map st) in
        match rest with
        | parent :: rest' =>
            mkGState
              (mkNode (ntype parent) (elems parent ++ [s]) (nums parent ∪ nums node)
                 :: rest')
              pm bm
        | [] => mkGState [] pm bm
        end
    | [] => st
    end
  else if eqt tk "|" then st
  else
    match py_int tk with
    | None => st
    | Some n =>
        match stack st with
        | top :: rest =>
            mkGState
              (mkNode (ntype top) (elems top ++ [str n]) (nums top ∪ {[n]}) :: rest)
              (paren_map st) (brace_map st)
        | [] =>
            mkGState [] (setdefault n ("(" ++ str n ++ ")") (paren_map st)) (brace_map st)
        end
    end.

Definition group_run (tokens : list text) : GState :=
  fold_left group_step tokens (mkGState [] ∅ ∅).

(** [for n, s in m.items(): group_map[n] = s]. *)
Definition assign_all (m : gmap Z text) (group_map : gmap Z text) : gmap Z text :=
  map_fold (fun n s acc => <[n := s]> acc) group_map m.

Definition merge_maps (pm bm : gmap Z text) : gmap Z text :=
  assign_all bm (assign_all pm ∅).

Definition _build_group_map_tokens (tokens : list text) : gmap Z text :=
  let st := group_run tokens in
  merge_maps (paren_map st) (brace_map st).

Definition _build_group_map (score_body : text) : gmap Z text :=
  _build_group_map_tokens (_score_tokenize score_body).

(** [group_map.get(vid, f'({vid})')] *)
Definition gkey_of (group_map : gmap Z text) (vid : Z) : text :=
  default ("(" ++ str vid ++ ")") (group_map !! vid).

(** *** _broadcast_snm

    [g2vids] is a dict from group key to the list of its voice ids, in the
    order the keys were first seen. *)

Fixpoint g2_append (gkey : text) (vid : Z) (g2 : list (text * list Z))
  : list (text * list Z) :=
  match g2 with
  | [] => [(gkey, [vid])]
  | (k, vids) :: g2' =>
      if eqt gkey k then (k, vids ++ [vid]) :: g2'
      else (k, vids) :: g2_append gkey vid g2'
  end.

Definition build_g2vids (vmeta : list (Z * VMeta)) (group_map : gmap Z text)
  : list (text * list Z) :=
  fold_left (fun g2 vid => g2_append (gkey_of group_map vid) vid g2) (dict_keys vmeta) [].

(** The stripped short name of voice [v], empty when there is none. *)
Definition snm_of (vmeta : list (Z * VMeta)) (v : Z) : text :=
  match dict_get v vmeta with
  | Some meta => strip (snm meta)
  | None => []
  end.

(** The first non-empty short name among [vids], taken in the given order. *)
Fixpoint first_snm (vmeta : list (Z * VMeta)) (vids : list Z) : text :=
  match vids with
  | [] => []
  | v :: rest =>
      match snm_of vmeta v with
      | [] => first_snm vmeta rest
      | s => s
      end
  end.

Definition set_snm (leader : text) (meta : VMeta) : VMeta :=
  mkVMeta (clef meta) (transpose meta) (nm meta) leader.

(** [vmeta[v]["snm"] = leader]: the inner dict of [v] is changed in place. *)
Fixpoint assign_snm (v : Z) (leader : text) (vmeta : list (Z * VMeta))
  : list (Z * VMeta) :=
  match vmeta with
  | [] => []
  | (k, meta) :: d =>
      if v =? k then (k, set_snm leader meta) :: d
      else (k, meta) :: assign_snm v leader d
  end.

(** One turn of the second inner loop: voice [v] takes the leader when it
    has no short name. *)
Definition fill_step (leader : text) (vmeta : list (Z * VMeta)) (v : Z)
  : list (Z * VMeta) :=
  match snm_of vmeta v with
  | [] => assign_snm v leader vmeta
  | _ => vmeta
  end.

Definition fill_group (leader : text) (vids : list Z) (vmeta : list (Z * VMeta))
  : list (Z * VMeta) :=
  fold_left (fill_step leader) vids vmeta.

Definition broadcast_group (vmeta : list (Z * VMeta)) (g : text * list Z)
  : list (Z * VMeta) :=
  match first_snm vmeta (sorted (snd g)) with
  | [] => vmeta
  | leader => fill_group leader (snd g) vmeta
  end.

Definition _broadcast_snm (vmeta : list (Z * VMeta)) (group_map : gmap Z text)
  : list (Z * VMeta) :=
  fold_left broadcast_group (build_g2vids vmeta group_map) vmeta.

(** *** _render_tagged_v_header *)

(** The clef pattern of the renderer, on the whole text: lower-case ASCII
    letters (group 1), then optionally a sign with decimal digits
    (group 2), then the end. *)
Definition clef_parts_re (s : text) : option (text * text) :=
  let (base, r) := span is_lower_az s in
  match base with
  | [] => None
  | _ =>
      match r with
      | [] => Some (base, [])
      | sg :: r' =>
          if eqc sg "+" || eqc sg "-" then
            let (ds, tl) := span isdecimal r' in
            match ds, tl with
            | _ :: _, [] => Some (base, sg :: ds)
            | _ :: _, [c] => if is_code 10 c then Some (base, sg :: ds) else None
            | _, _ => None
            end
          else if is_code 10 sg then
            match r' with [] => Some (base, []) | _ => None end
          else None
      end
  end.

Definition render_v_line (group_map : gmap Z text) (vid : Z) (meta : VMeta) : text :=
  let raw_clef := lower (strip (clef meta)) in
  let clef :=
    match raw_clef with
    | [] => []
    | _ =>
        match clef_parts_re raw_clef with
        | Some (base, octv) => take 4 base ++ octv
        | None => take 4 raw_clef
        end
    end in
  let tran := transpose meta in
  let snm := replace " " "" (snm meta) in
  let gkey := gkey_of group_map vid in
  let parts :=
    ["V:" ++ str vid]
    ++ (match clef with [] => [] | _ => [clef] end)
    ++ [str tran]
    ++ (match snm with [] => [] | _ => [snm] end)
    ++ [gkey] in
  join " " parts.

Definition _render_tagged_v_header (vmeta : list (Z * VMeta)) (group_map : gmap Z text)
  : list text :=
  omap (fun vid => render_v_line group_map vid <$> dict_get vid vmeta)
    (sorted (dict_keys vmeta)).

(** *** _inject_first_line_tags *)

(** The first loop: the line cut at every voice marker, markers and the
    text between them alternating, no empty part.  [cur] is the text since
    the last marker, [skip] the characters of a marker still to pass. *)
Fixpoint line_parts_go (cur : text) (skip : nat) (line : text) : list text :=
  match line with
  | [] => match cur with [] => [] | _ => [cur] end
  | c :: r =>
      match skip with
      | S k => line_parts_go cur k r
      | O =>
          match _V_TAGGED_SEG_RE line with
          | Some (_, n) =>
              (match cur with [] => [] | _ => [cur] end)
              ++ take n line :: line_parts_go [] (n - 1) r
          | None => line_parts_go (cur ++ [c]) 0 r
          end
      end
  end.

Definition line_parts (line : text) : list text := line_parts_go [] 0 line.

Definition has_perc_K (perc_inline : gmap Z Perc) (vid : Z) : bool :=
  match perc_inline !! vid with
  | Some e => match percK e with Some _ => true | None => false end
  | None => false
  end.

Definition perc_I_lines (perc_inline : gmap Z Perc) (vid : Z) : list text :=
  match perc_inline !! vid with
  | Some e => default [] (percI e)
  | None => []
  end.

(** The tempo and meter tags appended after a marker of voice [vid], with
    the two flags after it. *)
Definition tempo_meter_tags (q_val m_val : option text) (first_q_done m_done : bool)
    (vid : Z) : list text * bool * bool :=
  let '(qi, qd) :=
    match q_val with
    | Some q => if negb first_q_done && (vid =? 1)
                then (["[Q:" ++ q ++ "]"], true) else ([], first_q_done)
    | None => ([], first_q_done)
    end in
  let '(mi, md) :=
    match m_val with
    | Some m => if negb m_done && (vid =? 1)
                then (["[M:" ++ m ++ "]"], true) else ([], m_done)
    | None => ([], m_done)
    end in
  (qi ++ mi, qd, md).

(** The key tag appended after a marker of voice [vid] followed by the part
    [seg_tail]. *)
Definition key_tags (k_default : option text) (perc_inline : gmap Z Perc)
    (vid : Z) (seg_tail : text) : list text :=
  let has_inline_k := contains "[K:" seg_tail in
  if has_perc_K perc_inline vid then ["[K:" ++ "none" ++ "]"]
  else
    match k_default with
    | Some k => if negb has_inline_k then ["[K:" ++ k ++ "]"] else []
    | None => []
    end.

Definition percmap_tags (perc_inline : gmap Z Perc) (vid : Z) : list text :=
  map (fun il => "[" ++ il ++ "]") (perc_I_lines perc_inline vid).

(** The second loop: every part with the list [inject] appended to it (empty
    for a part that is no marker).  The voice id of a marker is read by
    [int] with no handler. *)
Fixpoint inject_loop (q_val m_val k_default : option text) (perc_inline : gmap Z Perc)
    (first_q_done m_done : bool) (parts : list text)
  : option (list (text * list text)) :=
  match parts with
  | [] => Some []
  | seg :: rest =>
      match _V_TAGGED_SEG_RE seg with
      | Some (g1, _) =>
          vid ← py_int g1;
          let '(qm, qd, md) := tempo_meter_tags q_val m_val first_q_done m_done vid in
          let seg_tail := match rest with t :: _ => t | [] => [] end in
          let inject :=
            qm ++ key_tags k_default perc_inline vid seg_tail
               ++ percmap_tags perc_inline vid in
          tl ← inject_loop q_val m_val k_default perc_inline qd md rest;
          Some ((seg, inject) :: tl)
      | None =>
          tl ← inject_loop q_val m_val k_default perc_inline first_q_done m_done rest;
          Some ((seg, []) :: tl)
      end
  end.

Definition render_parts (ps : list (text * list text)) : text :=
  concat (map (fun p => fst p ++ concat (snd p)) ps).

Definition _inject_first_line_tags (line : text) (q_val m_val k_default : option text)
    (perc_inline : gmap Z Perc) : option text :=
  render_parts <$>
    inject_loop q_val m_val k_default perc_inline false false (line_parts line).

(** *** _strip_floating_q *)

Definition protect_match (s : text) : option (text * nat) :=
  match _V_INLINE_Q_RE s with
  | Some (g1, g2, n) =>
      Some (g1 ++ "<QPROTECTED>" ++ removelast (drop 1 g2) ++ "</QPROTECTED>", n)
  | None => None
  end.

Definition drop_q_match (s : text) : option (text * nat) :=
  match _ANY_Q_INLINE_RE s with
  | Some (_, n) => Some ([], n)
  | None => None
  end.

Definition _strip_floating_q (line : text) : text :=
  let protected := re_sub protect_match line in
  let stripped := re_sub drop_q_match protected in
  replace "</QPROTECTED>" "]" (replace "<QPROTECTED>" "[" stripped).

(** *** encode, decode *)


Definition _ensure_bars (bars : list text) : list text := bars.

(** Whitespace runs replaced by nothing. *)
Definition drop_space (line : text) : text :=
  List.filter (fun c => negb (isspace c)) line.

Definition encode (abc_text : text) : option text :=
  let text := replace [CR] [LF] (replace [CR; LF] [LF] (_shorten_clef abc_text)) in
  let lines := List.filter nonblank (split_char LF text) in
  let '(header, bars) := _split_header_bars lines in
  let header := List.filter (fun ln => negb (startswith "L:1/8" ln)) header in
  let q_val := _pick_once header _Q_RE in
  let m_val := _pick_once header _M_RE in
  let k_val := _pick_once header _K_RE in
  let score_body := _pick_once header _SCORE_RE in
  '(vmeta, percussive_inline) ← _collect_v_and_percmap header;
  let group_map :=
    match score_body with
    | Some (c :: sb) => _build_group_map (c :: sb)
    | _ => ∅
    end in
  let vmeta := _broadcast_snm vmeta group_map in
  let compact_header := _render_tagged_v_header vmeta group_map in
  let bars := _ensure_bars bars in
  bars ←
    match bars with
    | [] => Some []
    | b0 :: rest =>
        b0' ← _inject_first_line_tags b0 q_val m_val k_val percussive_inline;
        Some (b0' :: rest)
    end;
  let bars := map _strip_floating_q bars in
  let bars := map drop_space bars in
  Some (join [LF] (compact_header ++ bars)).

End Cleaner.

(** ** The decoder (mess.py) *)

Module Mess.

(** *** split_head_body *)

Definition is_head_line (ln : text) : bool :=
  match ln with
  | c0 :: c1 :: _ => isalpha c0 && eqc c1 ":"
  | _ => false
  end.

Fixpoint split_head_body_loop (head body lines : list text) : list text * list text :=
  match lines with
  | [] => (head, body)
  | ln :: rest =>
      if negb (nonblank ln) then split_head_body_loop head body rest
      else if is_head_line ln then split_head_body_loop (head ++ [ln]) body rest
      else split_head_body_loop head (body ++ [ln]) rest
  end.

Definition split_head_body_lines (lines : list text) : list text * list text :=
  split_head_body_loop [] [] lines.

Definition split_head_body (abc : text) : list text * list text :=
  split_head_body_lines (splitlines abc).

(** *** probe_qmk_from_body *)

Definition RE_TAG_Q : text -> option (text * nat) := tag_re "Q".
Definition RE_TAG_M : text -> option (text * nat) := tag_re "M".
Definition RE_TAG_K : text -> option (text * nat) := tag_re "K".

(** The truth value of an optional string. *)
Definition truthy (o : option text) : bool :=
  match o with
  | Some (_ :: _) => true
  | _ => false
  end.

(** What one line gives for the tempo (or the meter): the first tag of the
    line without its brackets. *)
Definition line_tag (x : ascii) (ln : text) : option text :=
  match re_search (tag_re x) ln with
  | Some (body, _) => Some ([x; ":"%char] ++ body)
  | None => None
  end.

(** What one line gives for the key: its first key tag, unless that one
    says none. *)
Definition line_key (ln : text) : option text :=
  match re_search RE_TAG_K ln with
  | Some (body, _) =>
      let kval := strip body in
      if negb (eqt (lower kval) "none") then Some ("K:" ++ kval) else None
  | None => None
  end.

Fixpoint probe_loop (q m k : option text) (body_lines : list text)
  : option text * option text * option text :=
  match body_lines with
  | [] => (q, m, k)
  | ln :: rest =>
      let q := match q with None => line_tag "Q" ln | Some _ => q end in
      let m := match m with None => line_tag "M" ln | Some _ => m end in
      let k := match k with None => line_key ln | Some _ => k end in
      if truthy q && truthy m && truthy k then (q, m, k)
      else probe_loop q m k rest
  end.

Definition probe_qmk_from_body (body_lines : list text)
  : option text * option text * option text :=
  probe_loop None None None body_lines.

(** *** parse_vdefs_simple *)

Definition CLEF_MAP (k : text) : option text :=
  if eqt k "treb" then Some (txt "treble")
  else if eqt k "treble" then Some (txt "treble")
  else if eqt k "alto" then Some (txt "alto")
  else if eqt k "bass" then Some (txt "bass")
  else if eqt k "perc" then Some (txt "perc")
  else None.

Record VDef := mkVDef {
  vid : Z;
  clef : text;
  transpose : Z;
  name : text;
  group : option text
}.

(** The fields of one compact line: five, or four and no group. *)
Definition v_fields (ln : text) : option (text * text * text * text * option text) :=
  match split_ws_max 4 ln with
  | [vraw; clef; trp; name; grp] => Some (vraw, clef, trp, name, Some grp)
  | _ =>
      match split_ws_max 3 ln with
      | [vraw; clef; trp; name] => Some (vraw, clef, trp, name, None)
      | _ => None
      end
  end.

Definition is_group_text (grp : text) : bool :=
  (startswith "(" grp && endswith ")" grp) || (startswith "{" grp && endswith "}" grp).

Definition parse_vdef (ln : text) : option VDef :=
  if startswith "V:" ln then
    match v_fields ln with
    | Some (vraw, clef, trp, name, grp) =>
        match split_char ":" vraw with
        | _ :: x :: _ =>
            match py_int x with
            | Some vid =>
                let clef_n := default clef (CLEF_MAP (lower clef)) in
                let trp_i := default 0 (py_int trp) in
                let grp := strip (default [] grp) in
                let grp :=
                  match grp with
                  | [] => None
                  | _ => if is_group_text grp then Some grp else None
                  end in
                Some (mkVDef vid clef_n trp_i name grp)
            | None => None
            end
        | _ => None
        end
    | None => None
    end
  else None.

(** [out.sort(key=lambda x: x.vid)]: a stable sort. *)
Fixpoint insert_vdef (v : VDef) (l : list VDef) : list VDef :=
  match l with
  | [] => [v]
  | w :: l' => if vid v <=? vid w then v :: l else w :: insert_vdef v l'
  end.

Definition sort_vdefs (l : list VDef) : list VDef :=
  fold_right insert_vdef [] l.

Definition parse_vdefs_simple (lines : list text) : list VDef :=
  sort_vdefs (omap parse_vdef lines).

(** *** The score line of the restored header *)

(** [_split_top_level_pipes]: [lvl] may go below zero. *)
Fixpoint split_pipes_go (out : list text) (buf : text) (lvl : Z) (s : text) : list text :=
  match s with
  | [] =>
      match strip buf with
      | [] => out
      | tok => out ++ [tok]
      end
  | ch :: r =>
      if eqc ch "(" || eqc ch "{" then split_pipes_go out (buf ++ [ch]) (lvl + 1) r
      else if eqc ch ")" || eqc ch "}" then split_pipes_go out (buf ++ [ch]) (lvl - 1) r
      else if eqc ch "|" && (lvl =? 0) then
        match strip buf with
        | [] => split_pipes_go out [] lvl r
        | tok => split_pipes_go (out ++ [tok]) [] lvl r
        end
      else split_pipes_go out (buf ++ [ch]) lvl r
  end.

Definition _split_top_level_pipes (s : text) : list text := split_pipes_go [] [] 0 s.

(** [s[1:-1]] *)
Definition inner_of (s : text) : text := removelast (drop 1 s).

(** [[int(x) for x in xs if x.strip().isdigit()]]; [int] may raise. *)
Fixpoint ints_of (xs : list text) : option (list Z) :=
  match xs with
  | [] => Some []
  | x :: rest =>
      if str_isdigit (strip x) then
        n ← py_int x; ns ← ints_of rest; Some (n :: ns)
      else ints_of rest
  end.

Definition render_nums (nums : list Z) : text :=
  match nums with
  | [n] => str n
  | _ => "( " ++ join " " (map str nums) ++ " )"
  end.

Definition _norm_paren_token (s : text) : option text :=
  let inner := strip (inner_of (strip s)) in
  nums ← ints_of (split_char "|" inner);
  match nums with
  | [] => Some (txt "( )")
  | _ => Some (render_nums nums)
  end.

Fixpoint norm_arms (arms : list text) : option (list text) :=
  match arms with
  | [] => Some []
  | arm0 :: rest =>
      let arm := strip arm0 in
      match arm with
      | [] => norm_arms rest
      | _ =>
          if startswith "(" arm && endswith ")" arm then
            t ← _norm_paren_token arm; ts ← norm_arms rest; Some (t :: ts)
          else
            nums ← ints_of (map strip (_split_top_level_pipes arm));
            match nums with
            | [] => norm_arms rest
            | _ => ts ← norm_arms rest; Some (render_nums nums :: ts)
            end
      end
  end.

Definition _norm_brace_token (s : text) : option text :=
  let inner := strip (inner_of (strip s)) in
  arms ← norm_arms (_split_top_level_pipes inner);
  match arms with
  | [] => Some (txt "{ }")
  | _ => Some ("{ " ++ join " | " arms ++ " }")
  end.

Fixpoint arm_members (arms : list text) : option (list Z) :=
  match arms with
  | [] => Some []
  | arm0 :: rest =>
      let arm := strip arm0 in
      match arm with
      | [] => arm_members rest
      | _ =>
          ids ←
            (if startswith "(" arm && endswith ")" arm
             then ints_of (split_char "|" (strip (inner_of arm)))
             else ints_of (map strip (_split_top_level_pipes arm)));
          more ← arm_members rest;
          Some (ids ++ more)
      end
  end.

Definition _group_members (s0 : text) : option (list Z) :=
  let s := strip s0 in
  if startswith "(" s && endswith ")" s then
    ints_of (split_char "|" (strip (inner_of s)))
  else if startswith "{" s && endswith "}" s then
    arm_members (_split_top_level_pipes (strip (inner_of s)))
  else Some [].

(** *** build_score_tokens_in_appearance *)

Definition group_key (g : text) : option text :=
  ids ← _group_members g;
  let body := join "," (map str (sorted ids)) in
  if startswith "(" g then Some ("P:" ++ body) else Some ("B:" ++ body).

Definition list_min (d : Z) (l : list Z) : Z :=
  match l with
  | [] => d
  | x :: l' => fold_left Z.min l' x
  end.

Record ScoreAcc := mkScoreAcc {
  seen_group_keys : list text;
  tokens : list text;
  grouped_members : gset Z;
  rep_for_nm : gmap Z text
}.

Fixpoint score_groups (acc : ScoreAcc) (vdefs : list VDef) : option ScoreAcc :=
  match vdefs with
  | [] => Some acc
  | v :: rest =>
      match group v with
      | Some g =>
          key ← group_key g;
          if existsb (eqt key) (seen_group_keys acc) then score_groups acc rest
          else
            ids ← _group_members g;
            let rep := list_min (vid v) ids in
            tok ← (if startswith "(" g then _norm_paren_token g else _norm_brace_token g);
            score_groups
              (mkScoreAcc (seen_group_keys acc ++ [key]) (tokens acc ++ [tok])
                 (grouped_members acc ∪ list_to_set ids)
                 (<[rep := g]> (rep_for_nm acc)))
              rest
      | None => score_groups acc rest
      end
  end.

Definition build_score_tokens_in_appearance (vdefs : list VDef)
  : option (list text * gmap Z text) :=
  acc ← score_groups (mkScoreAcc [] [] ∅ ∅) vdefs;
  let singles :=
    List.filter (fun x => negb (bool_decide (x ∈ grouped_members acc))) (map vid vdefs) in
  let rep := fold_left (fun m x => match m !! x with
                                    | Some _ => m
                                    | None => <[x := []]> m
                                    end) singles (rep_for_nm acc) in
  Some (tokens acc ++ map str singles, rep).

(** *** render_head *)

Definition render_v (rep_for_nm : gmap Z text) (v : VDef) : text :=
  let fields :=
    ["V:" ++ str (vid v); clef v]
    ++ (if eqt (clef v) "perc" then [txt "stafflines=1"] else [])
    ++ (if negb (transpose v =? 0) then ["transpose=" ++ str (transpose v)] else [])
    ++ (match rep_for_nm !! vid v, name v with
        | Some _, _ :: _ =>
            ["nm=" ++ [dq] ++ name v ++ [dq]; "snm=" ++ [dq] ++ name v ++ [dq]]
        | _, _ => []
        end) in
  join " " fields.

Definition opt_line (o : option text) : list text :=
  match o with
  | Some (c :: l) => [c :: l]
  | _ => []
  end.

Definition render_head (vdefs : list VDef) (body_lines : list text) : option (list text) :=
  '(score_tokens, rep_for_nm) ← build_score_tokens_in_appearance vdefs;
  let head := ["%%score " ++ join " " score_tokens; txt "L:1/8"] in
  let '(q, m, k) := probe_qmk_from_body body_lines in
  let head := head ++ opt_line q ++ opt_line m ++ opt_line k in
  Some (head ++ map (render_v rep_for_nm) vdefs).

(** *** restore_text_simple *)

Definition restore_text_simple (abc_cleaned : text) : option text :=
  let '(head, body) := split_head_body abc_cleaned in
  let vdefs := parse_vdefs_simple head in
  match vdefs with
  | [] =>
      Some (join [LF] (head ++ body)
            ++ match head ++ body with [] => [] | _ => [LF] end)
  | _ =>
      head_out ← render_head vdefs body;
      Some (join [LF] (head_out ++ body) ++ [LF])
  end.

End Mess.

(** ** The specification's statements, and the notions of the proofs *)

Module Spec.

(** *** The header/body splitter *)

(** The header test as the specification words it: a line starts with one
    alphabetic character followed by a colon, or with two percent signs. *)
Definition header_pattern (ln : text) : bool :=
  match ln with
  | c0 :: c1 :: _ => (isalpha c0 && eqc c1 ":") || startswith "%%" ln
  | _ => false
  end.

Fixpoint take_while (f : text -> bool) (l : list text) : list text :=
  match l with
  | x :: r => if f x then x :: take_while f r else []
  | [] => []
  end.

Fixpoint drop_while (f : text -> bool) (l : list text) : list text :=
  match l with
  | x :: r => if f x then drop_while f r else l
  | [] => []
  end.

(** Everything before the first line that fails the test is header; that
    line and all after it are body. *)
Definition split_at_first_failure (f : text -> bool) (lines : list text)
  : list text * list text :=
  (take_while f lines, drop_while f lines).

(** The splitter of the specification, the same on both paths. *)
Definition splitter_claim (lines : list text) : Prop :=
  Cleaner._split_header_bars lines = split_at_first_failure header_pattern lines
  /\ Mess.split_head_body_lines lines = split_at_first_failure header_pattern lines.

(** *** The first-line tag injector *)

(** The key tag after a marker of voice [vid] as the specification words
    it: a key tag right after the marker suppresses the injection. *)
Definition key_tags_claimed (k_default : option text) (perc_inline : gmap Z Cleaner.Perc)
    (vid : Z) (seg_tail : text) : list text :=
  if Cleaner.has_perc_K perc_inline vid then [txt "[K:none]"]
  else if startswith "[K:" seg_tail then []
  else match k_default with
       | Some k => ["[K:" ++ k ++ "]"]
       | None => []
       end.

(** The same with the test the injector makes: a key tag anywhere in the
    text that follows the marker, up to the next marker. *)
Definition key_tags_amended (k_default : option text) (perc_inline : gmap Z Cleaner.Perc)
    (vid : Z) (seg_tail : text) : list text :=
  if Cleaner.has_perc_K perc_inline vid then [txt "[K:none]"]
  else if contains "[K:" seg_tail then []
  else match k_default with
       | Some k => ["[K:" ++ k ++ "]"]
       | None => []
       end.

(** The injector gives a line, made of the parts of the input line each
    followed by what is injected after it; after every marker that is: the
    tempo and meter tags, then the key tags that [key_rule] gives for the
    voice and the part that follows the marker, then the percussion-map
    tags. *)
Definition injection_rule
    (key_rule : option text -> gmap Z Cleaner.Perc -> Z -> text -> list text)
    (line : text) (q_val m_val k_default : option text)
    (perc_inline : gmap Z Cleaner.Perc) : Prop :=
  exists out,
    Cleaner.inject_loop q_val m_val k_default perc_inline false false
      (Cleaner.line_parts line) = Some out
    /\ Cleaner._inject_first_line_tags line q_val m_val k_default perc_inline
       = Some (Cleaner.render_parts out)
    /\ forall i seg inj ds n vid,
         out !! i = Some (seg, inj) ->
         Cleaner._V_TAGGED_SEG_RE seg = Some (ds, n) ->
         py_int ds = Some vid ->
         exists a b,
           inj = (Cleaner.tempo_meter_tags q_val m_val a b vid).1.1
                 ++ key_rule k_default perc_inline vid
                      (default [] (Cleaner.line_parts line !! S i))
                 ++ Cleaner.percmap_tags perc_inline vid.


(** *** The body probe *)

(** The first line, in order, for which [f] gives a value. *)
Fixpoint first_some {A : Type} (f : text -> option A) (lines : list text) : option A :=
  match lines with
  | [] => None
  | ln :: rest =>
      match f ln with
      | Some x => Some x
      | None => first_some f rest
      end
  end.

Definition or_else {A : Type} (o : option A) (d : option A) : option A :=
  match o with Some _ => o | None => d end.

(** *** The clef shortening *)

(** The output of the encoder is free of the long clef name. *)
Definition no_treble_claim (abc_text : text) : Prop :=
  forall out, Cleaner.encode abc_text = Some out -> contains "treble" out = false.

(** *** The group map *)









(** *** The layout grammar

    A directive is a sequence of items; an item is a voice id or a group
    in parentheses or in braces. *)

#[warnings="-register-all"]
Inductive Item : Type :=
| Num (n : Z)
| Grp (brace : bool) (items : list Item).

Definition opener (b : bool) : text := if b then txt "{" else txt "(".
Definition closer (b : bool) : text := if b then txt "}" else txt ")".

(** The descriptor of an item. *)
Fixpoint show (it : Item) : text :=
  match it with
  | Num n => str n
  | Grp b its => opener b ++ join "|" (map show its) ++ closer b
  end.

(** The voice ids under an item. *)
Fixpoint ids (it : Item) : gset Z :=
  match it with
  | Num n => {[n]}
  | Grp _ its => ⋃ (map ids its)
  end.







(** *** The short-name broadcast *)

(** A group is settled when its voices all lack a short name or all have
    one. *)
Definition settled (vmeta : list (Z * Cleaner.VMeta)) (g : text * list Z) : Prop :=
  (forall v, In v (snd g) -> Cleaner.snm_of vmeta v = [])
  \/ (forall v, In v (snd g) -> Cleaner.snm_of vmeta v <> []).

(** No voice is in two groups of the list. *)
Fixpoint apart (G : list (text * list Z)) : Prop :=
  match G with
  | [] => True
  | g :: G' =>
      (forall g', In g' G' -> forall v, In v (snd g) -> ~ In v (snd g')) /\ apart G'
  end.

(** The keys of the groups differ. *)
Fixpoint distinct_keys (G : list (text * list Z)) : Prop :=
  match G with
  | [] => True
  | g :: G' => ~ In (fst g) (map fst G') /\ distinct_keys G'
  end.

(** Every voice of a group has the key of the group. *)
Definition keyed (kf : Z -> text) (G : list (text * list Z)) : Prop :=
  forall k l, In (k, l) G -> forall v, In v l -> kf v = k.

(** Every voice of a group is among [K]. *)
Definition within (K : list Z) (G : list (text * list Z)) : Prop :=
  forall k l, In (k, l) G -> forall v, In v l -> In v K.

(** *** The round trip *)







End Spec.

(** ** Notions of the further properties *)

Module Props.

(** A text without any whitespace character. *)
Definition nospace (s : text) : bool := forallb (fun c => negb (isspace c)) s.

(** A well-formed group descriptor: in parentheses or in braces, and
    without whitespace. *)
Definition descriptor (s : text) : Prop :=
  Mess.is_group_text s = true /\ nospace s = true.

(** The state of the layout parser holds descriptors only, and elements
    without whitespace. *)
Definition tidy (st : Cleaner.GState) : Prop :=
  Forall (fun node => Forall (fun e => nospace e = true) (Cleaner.elems node))
    (Cleaner.stack st)
  /\ map_Forall (fun _ s => descriptor s) (Cleaner.paren_map st)
  /\ map_Forall (fun _ s => descriptor s) (Cleaner.brace_map st).

(** The clef field of a compact voice line: the clef of the voice stripped
    and lowered, then cut to four letters, an octave suffix kept. *)
Definition compact_clef (meta : Cleaner.VMeta) : text :=
  let raw_clef := lower (strip (Cleaner.clef meta)) in
  match raw_clef with
  | [] => []
  | _ =>
      match Cleaner.clef_parts_re raw_clef with
      | Some (base, octv) => take 4 base ++ octv
      | None => take 4 raw_clef
      end
  end.

(** The name field of a compact voice line: the short name with every
    space removed. *)
Definition compact_snm (meta : Cleaner.VMeta) : text :=
  replace " " "" (Cleaner.snm meta).

(** The fields of a compact voice line; the clef and the name are left out
    when empty. *)
Definition v_line_fields (group_map : gmap Z text) (vid : Z) (meta : Cleaner.VMeta)
  : list text :=
  ["V:" ++ str vid]
  ++ (match compact_clef meta with [] => [] | c => [c] end)
  ++ [str (Cleaner.transpose meta)]
  ++ (match compact_snm meta with [] => [] | s => [s] end)
  ++ [Cleaner.gkey_of group_map vid].

(** A word: not empty, no whitespace. *)
Definition word (w : text) : Prop := w <> [] /\ nospace w = true.

(** The voices of [vm'] are those of [vm], in the same order and with the
    same clef, transposition and full name; a short name that is not blank
    is the same too. *)
Definition keeps_voices (vm vm' : list (Z * Cleaner.VMeta)) : Prop :=
  Cleaner.dict_keys vm' = Cleaner.dict_keys vm
  /\ forall v m, Cleaner.dict_get v vm = Some m ->
       exists s, Cleaner.dict_get v vm' = Some (Cleaner.set_snm s m)
                 /\ (strip (Cleaner.snm m) <> [] -> s = Cleaner.snm m).

(** The short name of [v] in [vm'] is the one it has in [vm], or [v] had
    none and has that of a voice of [vm] with the same group key. *)
Definition name_from_group (kf : Z -> text) (vm vm' : list (Z * Cleaner.VMeta))
    (v : Z) : Prop :=
  Cleaner.snm_of vm' v = Cleaner.snm_of vm v
  \/ (Cleaner.snm_of vm v = []
      /\ exists w, In w (Cleaner.dict_keys vm) /\ kf w = kf v
                   /\ Cleaner.snm_of vm w = Cleaner.snm_of vm' v).




(** The voice ids under an item, in the order they are written. *)
Fixpoint members (it : Spec.Item) : list Z :=
  match it with
  | Spec.Num n => [n]
  | Spec.Grp _ its => flat_map members its
  end.

(** A voice id as the tokenizer can give it: not negative. *)
Definition is_id (it : Spec.Item) : bool :=
  match it with
  | Spec.Num n => 0 <=? n
  | Spec.Grp _ _ => false
  end.

(** A parenthesis group of voice ids. *)
Definition flat_paren (it : Spec.Item) : bool :=
  match it with
  | Spec.Grp false its => forallb is_id its
  | _ => false
  end.

(** A group of at most two levels: a parenthesis group of voice ids, or a
    brace group of voice ids and of such parenthesis groups. *)
Definition two_level (it : Spec.Item) : bool :=
  match it with
  | Spec.Grp true its => forallb (fun a => is_id a || flat_paren a) its
  | _ => flat_paren it
  end.

(** A payload with every bar replaced by a space. *)
Definition bars_as_spaces (s : text) : text :=
  map (fun c => if eqc c "|" then " "%char else c) s.

(** A list of numbers in ascending order. *)
Fixpoint ascending (l : list Z) : Prop :=
  match l with
  | [] => True
  | x :: r => Forall (fun y => x <= y) r /\ ascending r
  end.

End Props.

(** ** The header/body splitter *)

Section Splitter.

Import Cleaner Mess Spec.

Lemma take_drop_while f (l : list text) : take_while f l ++ drop_while f l = l.
Proof.
  induction l as [|x l IH]; simpl; [reflexivity|].
  destruct (f x); simpl; [now rewrite IH | reflexivity].
Qed.

Lemma split_header_loop_body h b lines :
  split_header_loop true h b lines = (h, b ++ lines).
Proof.
  revert b. induction lines as [|ln lines IH]; intros b; simpl.
  - now rewrite app_nil_r.
  - rewrite IH, <- app_assoc. reflexivity.
Qed.

Lemma split_header_loop_head h b lines :
  split_header_loop false h b lines
  = (h ++ take_while _is_header lines, b ++ drop_while _is_header lines).
Proof.
  revert h. induction lines as [|ln lines IH]; intros h; simpl.
  - now rewrite !app_nil_r.
  - destruct (_is_header ln); simpl.
    + rewrite IH, <- app_assoc. reflexivity.
    + rewrite split_header_loop_body, app_nil_r, <- app_assoc. reflexivity.
Qed.

Lemma split_head_body_loop_filter h b lines :
  split_head_body_loop h b lines
  = (h ++ List.filter is_head_line (List.filter nonblank lines),
     b ++ List.filter (fun ln => negb (is_head_line ln)) (List.filter nonblank lines)).
Proof.
  revert h b. induction lines as [|ln lines IH]; intros h b; simpl.
  - now rewrite !app_nil_r.
  - destruct (nonblank ln); simpl; [|apply IH].
    destruct (is_head_line ln); simpl; rewrite IH, <- app_assoc; reflexivity.
Qed.

Lemma filter_partition_perm (f : text -> bool) (l : list text) :
  List.filter f l ++ List.filter (fun x => negb (f x)) l ≡ₚ l.
Proof.
  induction l as [|x l IH]; simpl; [reflexivity|].
  destruct (f x); simpl.
  - now rewrite IH.
  - rewrite <- Permutation_middle. now rewrite IH.
Qed.

(** C2, as amended.  On the encode path the lines before the first one
    that fails the header test (made on the line without its surrounding
    whitespace) are the header, and that line and all later ones are the
    body, so header followed by body is the input.  On the decode path
    every non-blank line is classified on its own, by its first two
    characters only; the two outputs keep the input order and together hold
    every non-blank line once. *)
Theorem C2_splitters (lines : list text) :
  (_split_header_bars lines = split_at_first_failure _is_header lines
   /\ fst (_split_header_bars lines) ++ snd (_split_header_bars lines) = lines)
  /\ (split_head_body_lines lines
      = (List.filter is_head_line (List.filter nonblank lines),
         List.filter (fun ln => negb (is_head_line ln)) (List.filter nonblank lines))
      /\ fst (split_head_body_lines lines) ++ snd (split_head_body_lines lines)
         ≡ₚ List.filter nonblank lines).
Proof.
  unfold _split_header_bars, split_head_body_lines, split_at_first_failure.
  rewrite split_header_loop_head, split_head_body_loop_filter. simpl.
  repeat split.
  - apply take_drop_while.
  - apply filter_partition_perm.
Qed.

(** C2 as stated fails on the decode path: a line of header shape that
    comes after a body line goes back to the header. *)
Lemma C2_counterexample :
  ~ splitter_claim (map txt ["V:1 treb 0 (1)"; "[V:1]abc"; "K:C"]).
Proof.
  unfold splitter_claim. intros [_ H]. vm_compute in H. discriminate H.
Qed.

End Splitter.

(** ** Decimal digit strings always parse *)

Section Digits.

Lemma span_forallb f s a b : span f s = (a, b) -> forallb f a = true.
Proof.
  revert a b. induction s as [|c s IH]; intros a b; simpl.
  - intros [= <- <-]. reflexivity.
  - destruct (f c) eqn:Hc.
    + destruct (span f s) as [a' b'] eqn:Hs. intros [= <- <-]. simpl.
      rewrite Hc. simpl. eapply IH. reflexivity.
    + intros [= <- <-]. reflexivity.
Qed.

Lemma span_app f s a b : span f s = (a, b) -> s = a ++ b.
Proof.
  revert a b. induction s as [|c s IH]; intros a b; simpl.
  - intros [= <- <-]. reflexivity.
  - destruct (f c).
    + destruct (span f s) as [a' b'] eqn:Hs. intros [= <- <-]. simpl.
      f_equal. apply IH. reflexivity.
    + intros [= <- <-]. reflexivity.
Qed.

Lemma decimal_not_space c : isdecimal c = true -> isspace c = false.
Proof.
  destruct c as [[] [] [] [] [] [] [] []]; vm_compute; congruence.
Qed.

Lemma decimal_not_sign c :
  isdecimal c = true -> eqc c "-" = false /\ eqc c "+" = false.
Proof.
  destruct c as [[] [] [] [] [] [] [] []]; vm_compute; intuition congruence.
Qed.

Lemma lstrip_decimal c s : isdecimal c = true -> lstrip (c :: s) = c :: s.
Proof. intros H. simpl. now rewrite (decimal_not_space c H). Qed.

Lemma strip_decimal s : forallb isdecimal s = true -> strip s = s.
Proof.
  intros H. unfold strip, rstrip.
  assert (Hl : lstrip s = s).
  { destruct s as [|c s]; [reflexivity|]. simpl in H.
    apply andb_true_iff in H as [Hc _]. now apply lstrip_decimal. }
  rewrite Hl.
  assert (Hr : forallb isdecimal (rev s) = true).
  { rewrite forallb_forall in *. intros x Hx. apply H. now apply in_rev. }
  destruct (rev s) as [|c r] eqn:E.
  - simpl. rewrite <- (rev_involutive s), E. reflexivity.
  - simpl in Hr. apply andb_true_iff in Hr as [Hc _].
    rewrite (lstrip_decimal c r Hc), <- E. apply rev_involutive.
Qed.

Lemma int_digits_decimal s : forall acc b,
  forallb isdecimal s = true -> (s <> [] \/ b = true) ->
  exists z, int_digits acc b s = Some z.
Proof.
  induction s as [|c s IH]; intros acc b Hs Hne; simpl.
  - destruct Hne as [Hne | ->]; [congruence | eauto].
  - simpl in Hs. apply andb_true_iff in Hs as [Hc Hs]. rewrite Hc.
    apply IH; auto.
Qed.

Lemma py_int_decimal ds :
  ds <> [] -> forallb isdecimal ds = true -> exists z, py_int ds = Some z.
Proof.
  intros Hne Hd. unfold py_int. rewrite (strip_decimal ds Hd).
  destruct ds as [|c r]; [congruence|].
  pose proof Hd as Hd'. simpl in Hd'. apply andb_true_iff in Hd' as [Hc _].
  destruct (decimal_not_sign c Hc) as [-> ->].
  apply int_digits_decimal; auto.
Qed.

End Digits.

(** ** The first-line tag injector *)

Section Injector.

Import Cleaner Spec.

Lemma vtag_digits s ds n :
  _V_TAGGED_SEG_RE s = Some (ds, n) ->
  ds <> [] /\ forallb isdecimal ds = true /\ (1 <= n)%nat.
Proof.
  unfold _V_TAGGED_SEG_RE. destruct (startswith "[V:" s); [|discriminate].
  destruct (span isspace (drop 3 s)) as [w r1].
  destruct (span isdecimal r1) as [d r2] eqn:Hd.
  destruct d as [|c d]; [discriminate|]. destruct r2 as [|c2 r2]; [discriminate|].
  destruct (eqc c2 "]"); [|discriminate]. intros [= <- <-].
  split; [discriminate|]. split; [|lia]. eapply span_forallb; eauto.
Qed.

Lemma vtag_int s ds n :
  _V_TAGGED_SEG_RE s = Some (ds, n) -> exists vid, py_int ds = Some vid.
Proof.
  intros H. apply vtag_digits in H as (Hne & Hd & _). now apply py_int_decimal.
Qed.

(** The injector never fails: the digits of a marker always parse. *)
Lemma inject_loop_total q m k perc parts : forall a b,
  exists out, inject_loop q m k perc a b parts = Some out.
Proof.
  induction parts as [|seg rest IH]; intros a b; simpl; [eauto|].
  destruct (_V_TAGGED_SEG_RE seg) as [[ds n]|] eqn:Hv.
  - destruct (vtag_int _ _ _ Hv) as [vid ->]. simpl.
    destruct (tempo_meter_tags q m a b vid) as [[qm qd] md].
    destruct (IH qd md) as [tl ->]. simpl. eauto.
  - destruct (IH a b) as [tl ->]. simpl. eauto.
Qed.


Lemma key_tags_is_amended k perc vid tail :
  key_tags k perc vid tail = key_tags_amended k perc vid tail.
Proof.
  unfold key_tags, key_tags_amended.
  destruct (has_perc_K perc vid); [reflexivity|].
  destruct k; [|now destruct (contains "[K:" tail)].
  now destruct (contains "[K:" tail).
Qed.

Lemma inject_loop_lookup q m k perc parts : forall a b out i seg inj,
  inject_loop q m k perc a b parts = Some out ->
  out !! i = Some (seg, inj) ->
  parts !! i = Some seg
  /\ match _V_TAGGED_SEG_RE seg with
     | Some (ds, _) =>
         exists vid a' b',
           py_int ds = Some vid
           /\ inj = (tempo_meter_tags q m a' b' vid).1.1
                    ++ key_tags k perc vid (default [] (parts !! S i))
                    ++ percmap_tags perc vid
     | None => inj = []
     end.
Proof.
  induction parts as [|p rest IH]; intros a b out i seg inj; simpl.
  - intros [= <-]. now rewrite lookup_nil.
  - destruct (_V_TAGGED_SEG_RE p) as [[ds n]|] eqn:Hv.
    + destruct (py_int ds) as [vid|] eqn:Hi; [|discriminate]. simpl.
      destruct (tempo_meter_tags q m a b vid) as [[qm qd] md] eqn:Ht.
      destruct (inject_loop q m k perc qd md rest) as [tl|] eqn:Hl; [|discriminate].
      simpl. intros [= <-]. destruct i as [|i]; simpl.
      * intros [= <- <-]. split; [reflexivity|]. rewrite Hv.
        exists vid, a, b. split; [assumption|]. rewrite Ht. simpl.
        now destruct rest.
      * intros Hlk. exact (IH _ _ _ _ _ _ Hl Hlk).
    + destruct (inject_loop q m k perc a b rest) as [tl|] eqn:Hl; [|discriminate].
      simpl. intros [= <-]. destruct i as [|i]; simpl.
      * intros [= <- <-]. split; [reflexivity|]. now rewrite Hv.
      * intros Hlk. exact (IH _ _ _ _ _ _ Hl Hlk).
Qed.

(** C3, as amended.  After every marker of the first body line the injector
    appends the tempo and meter tags (if any), then the key tag, then the
    percussion-map tags.  The key tag is [K:none] when the voice has a
    recorded no-key override, whatever the default key; otherwise nothing
    when the text between this marker and the next one contains the opening
    of a key tag anywhere; otherwise the default key when one was
    extracted. *)
Theorem C3_key_injection (line : text) (q_val m_val k_default : option text)
    (perc_inline : gmap Z Perc) :
  injection_rule key_tags_amended line q_val m_val k_default perc_inline.
Proof.
  destruct (inject_loop_total q_val m_val k_default perc_inline (line_parts line)
              false false) as [out Hout].
  exists out. split; [exact Hout|]. split.
  { unfold _inject_first_line_tags. now rewrite Hout. }
  intros i seg inj ds n vid Hlk Hv Hi.
  destruct (inject_loop_lookup _ _ _ _ _ _ _ _ _ _ _ Hout Hlk) as [_ H].
  rewrite Hv in H. destruct H as (vid' & a & b & Hi' & ->).
  rewrite Hi in Hi'. injection Hi' as <-.
  exists a, b. now rewrite key_tags_is_amended.
Qed.

(** C3 as stated fails: a key tag later in the voice's text, not right after
    the marker, does suppress the injection of the default key. *)
Lemma C3_counterexample :
  ~ injection_rule key_tags_claimed "[V:1]abc[K:D]def" None None (Some (txt "C")) ∅.
Proof.
  intros (out & Hout & _ & H). vm_compute in Hout. injection Hout as <-.
  destruct (H 0%nat (txt "[V:1]") [] (txt "1") 5%nat 1) as (a & b & Hinj);
    try reflexivity.
  vm_compute in Hinj. discriminate Hinj.
Qed.

Lemma tempo_meter_none a b vid : tempo_meter_tags None None a b vid = ([], a, b).
Proof. reflexivity. Qed.

Lemma tempo_meter_done q m vid :
  tempo_meter_tags (Some q) (Some m) true true vid = ([], true, true).
Proof. reflexivity. Qed.


Lemma tempo_meter_first q m :
  tempo_meter_tags (Some q) (Some m) false false 1
  = (["[Q:" ++ q ++ "]"; "[M:" ++ m ++ "]"], true, true).
Proof. reflexivity. Qed.

(** Without a tempo and a meter the two flags play no part. *)
Lemma inject_loop_flags k perc parts : forall a b,
  inject_loop None None k perc a b parts
  = inject_loop None None k perc false false parts.
Proof.
  induction parts as [|seg rest IH]; intros a b; simpl; [reflexivity|].
  destruct (_V_TAGGED_SEG_RE seg) as [[ds n]|]; [|now rewrite IH].
  destruct (py_int ds) as [vid|]; [|reflexivity]. simpl.
  now rewrite (IH a b).
Qed.










Lemma C3_key_injection_witness :
  injection_rule key_tags_amended "[V:1]a[K:D]b[V:2]def" None None (Some (txt "C")) ∅.
Proof.
  apply (C3_key_injection "[V:1]a[K:D]b[V:2]def" None None (Some (txt "C")) ∅).
Defined.

End Injector.

(** ** The body probe of the decoder *)

Section Probe.

Import Mess Spec.

Lemma probe_loop_first_some lines : forall q m k,
  probe_loop q m k lines
  = (or_else q (first_some (line_tag "Q") lines),
     or_else m (first_some (line_tag "M") lines),
     or_else k (first_some line_key lines)).
Proof.
  induction lines as [|ln rest IH]; intros q m k; simpl.
  - now destruct q, m, k.
  - match goal with |- (if ?c then _ else _) = _ => destruct c eqn:Hc end.
    + apply andb_true_iff in Hc as [Hc Hk]. apply andb_true_iff in Hc as [Hq Hm].
      destruct q, m, k; simpl in *;
        repeat match goal with
               | H : truthy ?o = true |- _ =>
                   destruct o eqn:?; [clear H | discriminate H]
               end; reflexivity.
    + rewrite IH. destruct q, m, k; simpl;
        destruct (line_tag "Q" ln), (line_tag "M" ln), (line_key ln); reflexivity.
Qed.

(** The probe line by line: the tempo and the meter are the first tag of the
    first line that has one; the key is given by the first line whose first
    key tag does not say none. *)
Lemma probe_by_lines lines :
  probe_qmk_from_body lines
  = (first_some (line_tag "Q") lines,
     first_some (line_tag "M") lines,
     first_some line_key lines).
Proof. unfold probe_qmk_from_body. now rewrite probe_loop_first_some. Qed.

(** C4.  The probe looks at the first key tag of each line only.  On a line
    whose first key tag says none, a later key tag of the same line is not
    taken: the probe finds no key, or the key of a later line. *)
Theorem C4_probe_same_line_key :
  probe_qmk_from_body [txt "[V:1][K:none]abc[V:2][K:C]def"] = (None, None, None)
  /\ probe_qmk_from_body (map txt ["[V:1][K:none]abc[V:2][K:C]def"; "[V:1]g[K:D]a"])
     = (None, None, Some (txt "K:D")).
Proof. split; reflexivity. Qed.

End Probe.

(** ** The clef shortening *)

Section Shorten.

Import Cleaner Spec.

Lemma replace_go_skip old new s : forall k,
  replace_go old new k s = replace_go old new 0 (drop k s).
Proof.
  induction s as [|c r IH]; intros k.
  - now rewrite drop_nil.
  - destruct k as [|k]; [reflexivity|]. simpl. apply IH.
Qed.

Lemma shorten_unfold s :
  _shorten_clef s
  = if startswith "treble" s then "treb" ++ _shorten_clef (drop 6 s)
    else match s with
         | [] => []
         | c :: r => c :: _shorten_clef r
         end.
Proof.
  unfold _shorten_clef, replace. destruct s as [|c r]; [reflexivity|].
  cbn [replace_go]. destruct (startswith "treble" (c :: r)); [|reflexivity].
  f_equal. change (length (txt "treble") - 1)%nat with 5%nat.
  now rewrite replace_go_skip.
Qed.

Lemma contains_cons p c r :
  contains p (c :: r) = startswith p (c :: r) || contains p r.
Proof. reflexivity. Qed.

Lemma contains_drop p s : forall k,
  contains p s = false -> contains p (drop k s) = false.
Proof.
  induction s as [|c r IH]; intros k H.
  - now rewrite drop_nil.
  - destruct k as [|k]; [exact H|]. simpl. apply IH.
    rewrite contains_cons in H. now apply orb_false_iff in H as [_ H].
Qed.

Lemma startswith_cons x p y s :
  startswith (x :: p) (y :: s) = eqc x y && startswith p s.
Proof. reflexivity. Qed.

Lemma startswith_app a b s :
  startswith (a ++ b) s = startswith a s && startswith b (drop (length a) s).
Proof.
  revert s. induction a as [|x a IH]; intros s; simpl.
  - reflexivity.
  - destruct s as [|y s]; [reflexivity|]. simpl.
    rewrite IH. now rewrite andb_assoc.
Qed.

(** A text without the letter t that starts the rewritten text was copied:
    it starts the input too. *)
Lemma shorten_copied_prefix w : forall s,
  forallb (fun c => negb (eqc c "t")) w = true ->
  startswith w (_shorten_clef s) = true -> startswith w s = true.
Proof.
  induction w as [|x w IH]; intros s Hw H; [reflexivity|].
  simpl in Hw. apply andb_true_iff in Hw as [Hx Hw].
  rewrite shorten_unfold in H.
  destruct (startswith "treble" s) eqn:Hs.
  - simpl in H. apply andb_true_iff in H as [H _].
    rewrite H in Hx. discriminate Hx.
  - destruct s as [|c r]; [discriminate H|].
    simpl in H |- *. apply andb_true_iff in H as [-> H]. simpl.
    now apply IH.
Qed.

Lemma shorten_no_treble_aux n : forall s,
  (length s <= n)%nat ->
  contains "treblele" s = false -> contains "treble" (_shorten_clef s) = false.
Proof.
  induction n as [|n IH]; intros s Hn Hno.
  - destruct s; [reflexivity | simpl in Hn; lia].
  - rewrite shorten_unfold. destruct (startswith "treble" s) eqn:Hs.
    + assert (Hrest : contains "treble" (_shorten_clef (drop 6 s)) = false).
      { apply IH; [|now apply contains_drop].
        rewrite length_drop. destruct s; simpl in *; [discriminate|lia]. }
      assert (Hle : startswith "le" (_shorten_clef (drop 6 s)) = false).
      { destruct (startswith "le" (_shorten_clef (drop 6 s))) eqn:E; [|reflexivity].
        apply shorten_copied_prefix in E; [|reflexivity].
        assert (Hlong : startswith "treblele" s = true).
        { change (txt "treblele") with (txt "treble" ++ txt "le").
          rewrite startswith_app, Hs. exact E. }
        destruct s as [|c r]; [discriminate|].
        rewrite contains_cons, Hlong in Hno. discriminate Hno. }
      change (txt "treb" ++ _shorten_clef (drop 6 s))
        with ("t"%char :: "r"%char :: "e"%char :: "b"%char :: _shorten_clef (drop 6 s)).
      rewrite !contains_cons, Hrest.
      change (txt "treble") with (txt "treb" ++ txt "le") at 1.
      rewrite (startswith_app "treb" "le").
      change (drop (length (txt "treb")) ("t"%char :: "r"%char :: "e"%char :: "b"%char
                :: _shorten_clef (drop 6 s)))
        with (_shorten_clef (drop 6 s)).
      rewrite Hle. reflexivity.
    + destruct s as [|c r]; [reflexivity|].
      assert (Hrest : contains "treble" (_shorten_clef r) = false).
      { apply IH; [simpl in Hn; lia|].
        rewrite contains_cons in Hno. now apply orb_false_iff in Hno as [_ H]. }
      rewrite contains_cons, Hrest, orb_false_r.
      destruct (startswith "treble" (c :: _shorten_clef r)) eqn:E; [|reflexivity].
      change (txt "treble") with ("t"%char :: txt "reble") in E, Hs.
      rewrite startswith_cons in E, Hs. apply andb_true_iff in E as [Ec E].
      rewrite Ec, andb_true_l in Hs.
      apply shorten_copied_prefix in E; [|reflexivity]. congruence.
Qed.

Lemma shorten_no_treble s :
  contains "treblele" s = false -> contains "treble" (_shorten_clef s) = false.
Proof. apply (shorten_no_treble_aux (length s)). lia. Qed.

Lemma shorten_id s : contains "treble" s = false -> _shorten_clef s = s.
Proof.
  induction s as [|c r IH]; intros H; [reflexivity|].
  rewrite contains_cons in H. apply orb_false_iff in H as [Hs Hr].
  rewrite shorten_unfold, Hs. now rewrite IH.
Qed.

(** C10, as amended.  The first step of the encoder rewrites the
    occurrences of the long clef name everywhere in the text, header and
    body alike, before anything else is done: encoding a text gives what
    encoding the rewritten text gives, and the rewritten text holds the long
    name only where the input held it followed by its last two letters
    again.  (The output can hold the long name again: see the
    counterexample.) *)
Theorem C10_shorten_first (abc_text : text) :
  contains "treblele" abc_text = false ->
  contains "treble" (_shorten_clef abc_text) = false
  /\ encode abc_text = encode (_shorten_clef abc_text).
Proof.
  intros H. pose proof (shorten_no_treble abc_text H) as Hno.
  split; [exact Hno|].
  unfold encode. now rewrite (shorten_id _ Hno).
Qed.

Lemma C10_shorten_first_witness :
  contains "treble" (_shorten_clef "V:1 clef=treble") = false
  /\ encode "V:1 clef=treble" = encode (_shorten_clef "V:1 clef=treble").
Proof. apply (C10_shorten_first "V:1 clef=treble"). reflexivity. Defined.

(** C10 as stated fails: the output holds the long clef name when the
    removal of whitespace from a body line joins its pieces. *)
Lemma C10_counterexample : ~ no_treble_claim "tre ble".
Proof.
  intros H. specialize (H (txt "treble") eq_refl). vm_compute in H. discriminate H.
Qed.

End Shorten.

(** ** The encoder never fails *)

Section Totality.

Import Cleaner.




End Totality.

(** ** The group map: which ids it holds *)

Section GroupMapDomain.

Import Cleaner Spec.

Lemma eqc_eq a b : eqc a b = true -> a = b.
Proof. unfold eqc. now intros H%Ascii.eqb_eq. Qed.

Lemma eqt_eq a : forall b, eqt a b = true -> a = b.
Proof.
  induction a as [|x a IH]; intros [|y b]; simpl; try discriminate; [reflexivity|].
  intros [Hx Ha]%andb_true_iff. f_equal; [now apply eqc_eq | now apply IH].
Qed.

Lemma eqt_refl a : eqt a a = true.
Proof.
  induction a as [|x a IH]; simpl; [reflexivity|].
  unfold eqc. now rewrite Ascii.eqb_refl, IH.
Qed.

Lemma setdefault_lookup n s (m : gmap Z text) i :
  setdefault n s m !! i
  = match m !! i with
    | Some v => Some v
    | None => if decide (i = n) then Some s else None
    end.
Proof.
  unfold setdefault. destruct (m !! n) eqn:Hn.
  - destruct (m !! i) eqn:Hi; [reflexivity|].
    destruct (decide (i = n)) as [->|]; [congruence | reflexivity].
  - destruct (decide (i = n)) as [->|Hne].
    + now rewrite lookup_insert_eq, Hn.
    + rewrite lookup_insert_ne by congruence. now destruct (m !! i).
Qed.

Lemma setdefault_all_lookup ns s (m : gmap Z text) i :
  setdefault_all ns s m !! i
  = match m !! i with
    | Some v => Some v
    | None => if decide (i ∈ ns) then Some s else None
    end.
Proof.
  unfold setdefault_all. revert ns.
  refine (set_fold_ind_L
            (fun (r : gmap Z text) (X : gset Z) =>
               r !! i = match m !! i with
                        | Some v => Some v
                        | None => if decide (i ∈ X) then Some s else None
                        end)
            (fun n acc => setdefault n s acc) m _ _).
  - destruct (m !! i); [reflexivity|]. now rewrite decide_False by set_solver.
  - intros x X r Hx IH. rewrite setdefault_lookup, IH.
    destruct (m !! i); [reflexivity|].
    destruct (decide (i ∈ X)).
    + now rewrite decide_True by set_solver.
    + destruct (decide (i = x)) as [->|].
      * now rewrite decide_True by set_solver.
      * now rewrite decide_False by set_solver.
Qed.



Lemma assign_all_union (m g : gmap Z text) : assign_all m g = m ∪ g.
Proof.
  unfold assign_all.
  apply (map_fold_weak_ind (fun (r : gmap Z text) (m' : gmap Z text) => r = m' ∪ g)).
  - now rewrite (left_id_L ∅ (∪)).
  - intros i x m' r _ ->. now rewrite insert_union_l.
Qed.

(** The merge: the brace entries over the parenthesis entries. *)
Lemma merge_maps_union (pm bm : gmap Z text) : merge_maps pm bm = bm ∪ pm.
Proof.
  unfold merge_maps. rewrite !assign_all_union. now rewrite (right_id_L ∅ (∪)).
Qed.









End GroupMapDomain.

(** ** The short-name broadcast *)

Section Broadcast.

Import Cleaner Spec.

Lemma lstrip_nonspace c s : isspace c = false -> lstrip (c :: s) = c :: s.
Proof. intros H. simpl. now rewrite H. Qed.

Lemma lstrip_head s :
  match lstrip s with [] => True | c :: _ => isspace c = false end.
Proof.
  induction s as [|c s IH]; simpl; [exact I|].
  destruct (isspace c) eqn:Hc; [exact IH | exact Hc].
Qed.

Lemma lstrip_idem s : lstrip (lstrip s) = lstrip s.
Proof.
  pose proof (lstrip_head s) as H. destruct (lstrip s) as [|c r]; [reflexivity|].
  now apply lstrip_nonspace.
Qed.

Lemma lstrip_snoc l c : isspace c = false -> exists l', lstrip (l ++ [c]) = l' ++ [c].
Proof.
  intros Hc. induction l as [|x l IH]; simpl.
  - exists []. now rewrite Hc.
  - destruct (isspace x); [exact IH | now exists (x :: l)].
Qed.

Lemma rstrip_idem s : rstrip (rstrip s) = rstrip s.
Proof. unfold rstrip. now rewrite rev_involutive, lstrip_idem. Qed.

Lemma strip_idem s : strip (strip s) = strip s.
Proof.
  unfold strip.
  assert (H : lstrip (rstrip (lstrip s)) = rstrip (lstrip s)).
  { pose proof (lstrip_head s) as Hh. destruct (lstrip s) as [|c u]; [reflexivity|].
    unfold rstrip. simpl rev.
    destruct (lstrip_snoc (rev u) c Hh) as [l' ->].
    rewrite rev_app_distr. simpl. now rewrite Hh. }
  now rewrite H, rstrip_idem.
Qed.

(** *** Reading and writing one short name *)

Lemma keys_assign v l vm : dict_keys (assign_snm v l vm) = dict_keys vm.
Proof.
  unfold dict_keys. induction vm as [|[k meta] vm IH]; simpl; [reflexivity|].
  destruct (v =? k); simpl; [reflexivity | now rewrite IH].
Qed.

Lemma snm_of_assign_other v l vm v' :
  v' <> v -> snm_of (assign_snm v l vm) v' = snm_of vm v'.
Proof.
  intros Hne. unfold snm_of. induction vm as [|[k meta] vm IH]; simpl; [reflexivity|].
  destruct (Z.eqb_spec v k) as [->|Hvk]; simpl.
  - destruct (Z.eqb_spec v' k); [contradiction | reflexivity].
  - destruct (v' =? k); [reflexivity | exact IH].
Qed.

Lemma snm_of_assign_same v l vm :
  In v (dict_keys vm) -> snm_of (assign_snm v l vm) v = strip l.
Proof.
  unfold snm_of, dict_keys. induction vm as [|[k meta] vm IH]; simpl; [contradiction|].
  intros [<-|Hin].
  - rewrite Z.eqb_refl. simpl. now rewrite Z.eqb_refl.
  - destruct (Z.eqb_spec v k) as [->|Hvk]; simpl.
    + now rewrite Z.eqb_refl.
    + destruct (Z.eqb_spec v k); [contradiction | now apply IH].
Qed.

(** *** Filling one group *)

Lemma fill_step_keys l vm v : dict_keys (fill_step l vm v) = dict_keys vm.
Proof. unfold fill_step. destruct (snm_of vm v); [apply keys_assign | reflexivity]. Qed.

Lemma fill_step_kept l vm v v' :
  v' <> v \/ snm_of vm v' <> [] -> snm_of (fill_step l vm v) v' = snm_of vm v'.
Proof.
  intros H. unfold fill_step. destruct (snm_of vm v) eqn:E; [|reflexivity].
  apply snm_of_assign_other. destruct H as [H|H]; [exact H|]. congruence.
Qed.

Lemma fill_step_filled l vm v :
  strip l <> [] -> In v (dict_keys vm) -> snm_of (fill_step l vm v) v <> [].
Proof.
  intros Hl Hin. unfold fill_step. destruct (snm_of vm v) eqn:E.
  - now rewrite snm_of_assign_same.
  - rewrite E. discriminate.
Qed.

Lemma fill_group_keys l vids : forall vm, dict_keys (fill_group l vids vm) = dict_keys vm.
Proof.
  unfold fill_group. induction vids as [|v vids IH]; intros vm; simpl; [reflexivity|].
  now rewrite IH, fill_step_keys.
Qed.


Lemma fill_group_kept l vids v' : forall vm,
  ~ In v' vids \/ snm_of vm v' <> [] ->
  snm_of (fill_group l vids vm) v' = snm_of vm v'.
Proof.
  unfold fill_group. induction vids as [|v vids IH]; intros vm H; simpl; [reflexivity|].
  assert (Hk : snm_of (fill_step l vm v) v' = snm_of vm v').
  { apply fill_step_kept. destruct H as [H|H]; [left | now right].
    intros ->. apply H. now left. }
  rewrite IH, Hk; [reflexivity|].
  rewrite Hk. destruct H as [H|H]; [left | now right].
  intros Hin. apply H. now right.
Qed.

Lemma fill_group_filled l vids v : forall vm,
  strip l <> [] -> In v vids -> In v (dict_keys vm) ->
  snm_of (fill_group l vids vm) v <> [].
Proof.
  unfold fill_group. induction vids as [|x vids IH]; intros vm Hl Hin Hk; simpl.
  - contradiction.
  - destruct (Z.eq_dec x v) as [->|Hne].
    + pose proof (fill_step_filled l vm v Hl Hk) as Hf.
      change (snm_of (fill_group l vids (fill_step l vm v)) v <> []).
      rewrite fill_group_kept; [exact Hf | now right].
    + destruct Hin as [Hx|Hin]; [contradiction|].
      apply IH; [exact Hl | exact Hin | now rewrite fill_step_keys].
Qed.

Lemma fill_group_id l vids : forall vm,
  (forall v, In v vids -> snm_of vm v <> []) -> fill_group l vids vm = vm.
Proof.
  unfold fill_group. induction vids as [|x vids IH]; intros vm H; simpl; [reflexivity|].
  assert (Hx : fill_step l vm x = vm).
  { unfold fill_step. destruct (snm_of vm x) eqn:E; [|reflexivity].
    exfalso. apply (H x); [now left | exact E]. }
  rewrite Hx. apply IH. intros v Hv. apply H. now right.
Qed.

(** *** The leader of a group *)

Lemma first_snm_nil vm vids :
  first_snm vm vids = [] <-> (forall v, In v vids -> snm_of vm v = []).
Proof.
  induction vids as [|x vids IH]; simpl.
  - split; [intros _ v [] | reflexivity].
  - destruct (snm_of vm x) eqn:E.
    + rewrite IH. split.
      * intros H v [<-|Hv]; [exact E | now apply H].
      * intros H v Hv. apply H. now right.
    + split; [discriminate|]. intros H. specialize (H x (or_introl eq_refl)). congruence.
Qed.

Lemma snm_of_strip vm v : strip (snm_of vm v) = snm_of vm v.
Proof. unfold snm_of. destruct (dict_get v vm); [apply strip_idem | reflexivity]. Qed.

Lemma first_snm_strip vm vids : strip (first_snm vm vids) = first_snm vm vids.
Proof.
  induction vids as [|x vids IH]; simpl; [reflexivity|].
  destruct (snm_of vm x) eqn:E; [exact IH|]. rewrite <- E. apply snm_of_strip.
Qed.

Lemma insert_sorted_In x y l : In x (insert_sorted y l) <-> x = y \/ In x l.
Proof.
  induction l as [|z l IH]; simpl.
  - intuition congruence.
  - destruct (y <? z); simpl; [intuition congruence|].
    rewrite IH. intuition congruence.
Qed.

Lemma sorted_In x l : In x (sorted l) <-> In x l.
Proof.
  induction l as [|y l IH]; simpl; [reflexivity|].
  rewrite insert_sorted_In, IH. intuition congruence.
Qed.

(** *** One group, then all of them *)

Lemma broadcast_group_keys vm g : dict_keys (broadcast_group vm g) = dict_keys vm.
Proof.
  unfold broadcast_group. destruct (first_snm vm (sorted (snd g))); [reflexivity|].
  apply fill_group_keys.
Qed.

Lemma broadcast_group_other vm g v :
  ~ In v (snd g) -> snm_of (broadcast_group vm g) v = snm_of vm v.
Proof.
  intros H. unfold broadcast_group.
  destruct (first_snm vm (sorted (snd g))); [reflexivity|].
  apply fill_group_kept. now left.
Qed.

Lemma broadcast_group_settles vm g :
  (forall v, In v (snd g) -> In v (dict_keys vm)) ->
  settled (broadcast_group vm g) g.
Proof.
  intros Hk. unfold broadcast_group, settled.
  destruct (first_snm vm (sorted (snd g))) as [|c l] eqn:E.
  - left. intros v Hv. rewrite first_snm_nil in E. apply E. now apply sorted_In.
  - right. intros v Hv. apply fill_group_filled; [|exact Hv | now apply Hk].
    rewrite <- E, first_snm_strip, E. discriminate.
Qed.

Lemma broadcast_group_id vm g : settled vm g -> broadcast_group vm g = vm.
Proof.
  intros [H|H]; unfold broadcast_group.
  - assert (first_snm vm (sorted (snd g)) = []) as ->; [|reflexivity].
    apply first_snm_nil. intros v Hv. apply H. now apply sorted_In.
  - destruct (first_snm vm (sorted (snd g))); [reflexivity|].
    now apply fill_group_id.
Qed.

Lemma settled_kept vm g g' :
  (forall v, In v (snd g) -> ~ In v (snd g')) ->
  settled vm g -> settled (broadcast_group vm g') g.
Proof.
  intros Hd [H|H]; [left | right]; intros v Hv;
    rewrite broadcast_group_other by (now apply Hd); now apply H.
Qed.

Lemma fold_broadcast_keys G : forall vm,
  dict_keys (fold_left broadcast_group G vm) = dict_keys vm.
Proof.
  induction G as [|g G IH]; intros vm; simpl; [reflexivity|].
  now rewrite IH, broadcast_group_keys.
Qed.

Lemma fold_settled_kept g G : forall vm,
  (forall g', In g' G -> forall v, In v (snd g) -> ~ In v (snd g')) ->
  settled vm g -> settled (fold_left broadcast_group G vm) g.
Proof.
  induction G as [|g' G IH]; intros vm Hd Hs; simpl; [exact Hs|].
  apply IH.
  - intros g'' Hg''. apply Hd. now right.
  - apply settled_kept; [|exact Hs]. apply Hd. now left.
Qed.

Lemma fold_settles G : forall vm,
  apart G ->
  (forall g v, In g G -> In v (snd g) -> In v (dict_keys vm)) ->
  forall g, In g G -> settled (fold_left broadcast_group G vm) g.
Proof.
  induction G as [|g0 G IH]; intros vm Ha Hk g Hg; simpl; [destruct Hg|].
  destruct Ha as [Hd Ha]. destruct Hg as [<-|Hg].
  - apply fold_settled_kept; [exact Hd|].
    apply broadcast_group_settles. intros v Hv. apply (Hk g0 v); [now left | exact Hv].
  - apply IH; [exact Ha | | exact Hg].
    intros g' v Hg' Hv. rewrite broadcast_group_keys. apply (Hk g' v); [now right | exact Hv].
Qed.

Lemma fold_broadcast_id G : forall vm,
  (forall g, In g G -> settled vm g) -> fold_left broadcast_group G vm = vm.
Proof.
  induction G as [|g G IH]; intros vm H; simpl; [reflexivity|].
  rewrite broadcast_group_id by (apply H; now left).
  apply IH. intros g' Hg'. apply H. now right.
Qed.


(** *** The groups *)

Lemma g2_append_In key v G k l :
  In (k, l) (g2_append key v G) ->
  In (k, l) G
  \/ (k = key /\ exists l0, l = l0 ++ [v] /\ (l0 = [] \/ In (key, l0) G)).
Proof.
  induction G as [|[k0 l0] G IH]; simpl.
  - intros [[= <- <-]|[]]. right. split; [reflexivity|]. exists []. auto.
  - destruct (eqt key k0) eqn:E; simpl.
    + apply eqt_eq in E. subst k0. intros [[= <- <-]|H]; [|auto].
      right. split; [reflexivity|]. exists l0. auto.
    + intros [H|H]; [auto|]. destruct (IH H) as [H'|(-> & l1 & -> & [->|H'])]; auto.
      * right. split; [reflexivity|]. exists []. auto.
      * right. split; [reflexivity|]. exists l1. auto.
Qed.

Lemma g2_append_fst key v G :
  map fst (g2_append key v G)
  = if existsb (eqt key) (map fst G) then map fst G else map fst G ++ [key].
Proof.
  induction G as [|[k0 l0] G IH]; simpl; [reflexivity|].
  destruct (eqt key k0); simpl; [reflexivity|].
  rewrite IH. now destruct (existsb (eqt key) (map fst G)).
Qed.

Lemma g2_append_distinct key v G :
  distinct_keys G -> distinct_keys (g2_append key v G).
Proof.
  induction G as [|[k0 l0] G IH]; simpl; [auto|].
  intros [Hk Hd]. destruct (eqt key k0) eqn:E; simpl; [auto|].
  split; [|now apply IH].
  rewrite g2_append_fst. destruct (existsb (eqt key) (map fst G)); [exact Hk|].
  rewrite in_app_iff. intros [H|[<-|[]]]; [contradiction|].
  rewrite eqt_refl in E. discriminate E.
Qed.

Lemma g2_append_keyed (kf : Z -> text) v G :
  keyed kf G -> keyed kf (g2_append (kf v) v G).
Proof.
  intros Hk k l Hin x Hx.
  destruct (g2_append_In _ _ _ _ _ Hin) as [H|(-> & l0 & -> & H)].
  - exact (Hk k l H x Hx).
  - apply in_app_iff in Hx as [Hx|[<-|[]]]; [|reflexivity].
    destruct H as [->|H]; [destruct Hx | exact (Hk _ _ H x Hx)].
Qed.

Lemma g2_append_within K key v G :
  In v K -> within K G -> within K (g2_append key v G).
Proof.
  intros Hv Hw k l Hin x Hx.
  destruct (g2_append_In _ _ _ _ _ Hin) as [H|(-> & l0 & -> & H)].
  - exact (Hw k l H x Hx).
  - apply in_app_iff in Hx as [Hx|[<-|[]]]; [|exact Hv].
    destruct H as [->|H]; [destruct Hx | exact (Hw _ _ H x Hx)].
Qed.

Lemma g2_fold_inv (kf : Z -> text) K ks : forall G,
  (forall v, In v ks -> In v K) ->
  distinct_keys G -> keyed kf G -> within K G ->
  let G' := fold_left (fun g2 vid => g2_append (kf vid) vid g2) ks G in
  distinct_keys G' /\ keyed kf G' /\ within K G'.
Proof.
  induction ks as [|v ks IH]; intros G Hks Hd Hk Hw; simpl; [auto|].
  apply IH.
  - intros x Hx. apply Hks. now right.
  - now apply g2_append_distinct.
  - now apply g2_append_keyed.
  - apply g2_append_within; [|exact Hw]. apply Hks. now left.
Qed.

Lemma keyed_apart (kf : Z -> text) G : distinct_keys G -> keyed kf G -> apart G.
Proof.
  induction G as [|[k0 l0] G IH]; simpl; [auto|].
  intros [Hk Hd] Hkey. split.
  - intros [k' l'] Hg' v Hv Hv'. simpl in Hv, Hv'.
    pose proof (Hkey k0 l0 (or_introl eq_refl) v Hv) as H0.
    pose proof (Hkey k' l' (or_intror Hg') v Hv') as H1.
    apply Hk. apply in_map_iff. exists (k', l'). split; [simpl; congruence | exact Hg'].
  - apply IH; [exact Hd|]. intros k l Hin. apply (Hkey k l). now right.
Qed.

Lemma build_g2vids_inv vmeta gm :
  apart (build_g2vids vmeta gm)
  /\ (forall g v, In g (build_g2vids vmeta gm) -> In v (snd g) -> In v (dict_keys vmeta)).
Proof.
  unfold build_g2vids.
  destruct (g2_fold_inv (gkey_of gm) (dict_keys vmeta) (dict_keys vmeta) [])
    as (Hd & Hk & Hw); simpl; auto.
  - intros k l [].
  - intros k l [].
  - split; [now apply (keyed_apart (gkey_of gm))|].
    intros [k l] v Hg Hv. exact (Hw k l Hg v Hv).
Qed.

(** C9.  Applying the short-name broadcast to its own result changes
    nothing: the voice metadata after two passes is the voice metadata
    after one. *)
Theorem C9_broadcast_idempotent (vmeta : list (Z * VMeta)) (group_map : gmap Z text) :
  _broadcast_snm (_broadcast_snm vmeta group_map) group_map
  = _broadcast_snm vmeta group_map.
Proof.
  unfold _broadcast_snm at 1.
  assert (HG : build_g2vids (_broadcast_snm vmeta group_map) group_map
               = build_g2vids vmeta group_map).
  { unfold build_g2vids, _broadcast_snm. now rewrite fold_broadcast_keys. }
  rewrite HG. apply fold_broadcast_id.
  destruct (build_g2vids_inv vmeta group_map) as [Ha Hk].
  unfold _broadcast_snm. now apply fold_settles.
Qed.

End Broadcast.

(** ** The group map: brace priority *)

Section BracePriority.

Import Cleaner Spec.




Lemma num_not_bracket tk n :
  py_int tk = Some n ->
  eqt tk "(" || eqt tk "{" = false /\ eqt tk ")" || eqt tk "}" = false
  /\ eqt tk "|" = false.
Proof.
  intros H.
  assert (forall s : string, py_int s = None -> eqt tk s = false) as Hne.
  { intros s Hs. destruct (eqt tk s) eqn:E; [|reflexivity].
    apply eqt_eq in E. subst. congruence. }
  rewrite !Hne by reflexivity. auto.
Qed.



Lemma node_eq t e n t' e' n' : t = t' -> e = e' -> n = n' -> mkNode t e n = mkNode t' e' n'.
Proof. now intros -> -> ->. Qed.










End BracePriority.

(** ** The round trip *)

Section RoundTrip.

Import Cleaner Mess Spec.















End RoundTrip.

(** ** Tempo and meter on the first body line *)

Section TempoMeter.

Import Cleaner Spec.



End TempoMeter.

(** ** Numbers as text *)

Section IntText.

Lemma txt_cons c s : txt (String c s) = c :: txt s.
Proof. reflexivity. Qed.

Lemma int_digits_step c acc b r :
  isdecimal c = true ->
  int_digits acc b (c :: r) = int_digits (10 * acc + digit_val c) true r.
Proof. intros H. simpl. now rewrite H. Qed.

Lemma digits_decimal d : forallb isdecimal (txt (NilEmpty.string_of_uint d)) = true.
Proof. induction d; simpl; auto. Qed.

Lemma int_digits_acc d : forall a b,
  d <> Decimal.Nil \/ b = true ->
  int_digits (Z.pos a) b (txt (NilEmpty.string_of_uint d))
  = Some (Z.pos (Pos.of_uint_acc d a)).
Proof.
  induction d; intros a b H; cbn [NilEmpty.string_of_uint Pos.of_uint_acc];
    [destruct H as [H| ->]; [congruence | reflexivity] | ..];
    rewrite txt_cons, int_digits_step by reflexivity;
    rewrite <- (IHd _ true (or_intror eq_refl)); f_equal;
    unfold digit_val; vm_compute (code _); lia.
Qed.

Lemma int_digits_zero d : forall b,
  d <> Decimal.Nil \/ b = true ->
  int_digits 0 b (txt (NilEmpty.string_of_uint d)) = Some (Z.of_N (Pos.of_uint d)).
Proof.
  induction d; intros b H; cbn [NilEmpty.string_of_uint Pos.of_uint];
    [destruct H as [H| ->]; [congruence | reflexivity] | ..];
    rewrite txt_cons, int_digits_step by reflexivity;
    [apply IHd; now right | ..];
    cbn [Z.of_N]; rewrite <- (int_digits_acc d _ true (or_intror eq_refl));
    reflexivity.
Qed.

Lemma to_uint_not_nil p : Pos.to_uint p <> Decimal.Nil.
Proof.
  intros H. pose proof (DecimalPos.Unsigned.of_to p) as E.
  rewrite H in E. discriminate E.
Qed.

Lemma str_pos p : str (Z.pos p) = txt (NilEmpty.string_of_uint (Pos.to_uint p)).
Proof.
  unfold str. cbn [Z.to_int NilZero.string_of_int NilZero.string_of_uint].
  pose proof (to_uint_not_nil p). now destruct (Pos.to_uint p).
Qed.

Lemma str_neg p :
  str (Z.neg p) = "-"%char :: txt (NilEmpty.string_of_uint (Pos.to_uint p)).
Proof.
  unfold str. cbn [Z.to_int NilZero.string_of_int NilZero.string_of_uint].
  pose proof (to_uint_not_nil p). now destruct (Pos.to_uint p).
Qed.

Lemma digits_nonempty p : txt (NilEmpty.string_of_uint (Pos.to_uint p)) <> [].
Proof.
  pose proof (to_uint_not_nil p). now destruct (Pos.to_uint p).
Qed.

(** The characters of a printed number: decimal digits after an optional
    minus sign; never empty. *)
Lemma str_chars n :
  str n <> []
  /\ forallb (fun c => isdecimal c || eqc c "-") (str n) = true.
Proof.
  assert (Hd : forall d, forallb (fun c => isdecimal c || eqc c "-")
                           (txt (NilEmpty.string_of_uint d)) = true).
  { intros d. pose proof (digits_decimal d) as H. rewrite forallb_forall in *.
    intros c Hc. now rewrite (H c Hc). }
  destruct n as [|p|p].
  - split; [discriminate | reflexivity].
  - rewrite str_pos. split; [apply digits_nonempty | apply Hd].
  - rewrite str_neg. split; [discriminate|]. simpl. apply Hd.
Qed.

Lemma nonspace_strip c s :
  isspace c = false ->
  (match rev s with [] => true | d :: _ => negb (isspace d) end) = true ->
  strip (c :: s) = c :: s.
Proof.
  intros Hc Hl. unfold strip, rstrip. rewrite (lstrip_nonspace c s Hc).
  simpl rev. destruct (rev s) as [|d r] eqn:E; simpl.
  - rewrite Hc. simpl. f_equal. rewrite <- (rev_involutive s), E. reflexivity.
  - apply negb_true_iff in Hl. rewrite Hl. simpl.
    rewrite <- (rev_involutive s), E. simpl. now rewrite rev_app_distr.
Qed.

(** Reading a printed number gives the number. *)
Lemma py_int_str n : py_int (str n) = Some n.
Proof.
  destruct n as [|p|p].
  - reflexivity.
  - rewrite str_pos. unfold py_int. rewrite strip_decimal by apply digits_decimal.
    pose proof (digits_decimal (Pos.to_uint p)) as Hd.
    pose proof (int_digits_zero (Pos.to_uint p) false (or_introl (to_uint_not_nil p))) as Hi.
    destruct (txt (NilEmpty.string_of_uint (Pos.to_uint p))) as [|c r] eqn:E.
    + discriminate Hi.
    + simpl in Hd. apply andb_true_iff in Hd as [Hc _].
      destruct (decimal_not_sign c Hc) as [-> ->].
      rewrite Hi, DecimalPos.Unsigned.of_to. reflexivity.
  - rewrite str_neg. unfold py_int.
    pose proof (digits_decimal (Pos.to_uint p)) as Hd.
    rewrite nonspace_strip; [| reflexivity |].
    + change (eqc "-" "-") with true. cbn iota.
      rewrite (int_digits_zero (Pos.to_uint p) false (or_introl (to_uint_not_nil p))).
      rewrite DecimalPos.Unsigned.of_to. reflexivity.
    + pose proof (digits_nonempty p) as Hne.
      destruct (rev (txt (NilEmpty.string_of_uint (Pos.to_uint p)))) as [|d r] eqn:E.
      * reflexivity.
      * rewrite forallb_forall in Hd. rewrite (decimal_not_space d); [reflexivity|].
        apply Hd. apply in_rev. rewrite E. now left.
Qed.

End IntText.

(** ** The tokenizer of the layout directive *)

Section Tokenizer.

Import Cleaner.

Lemma score_tokenize_skip body : forall k,
  score_tokenize_go k body = score_tokenize_go 0 (drop k body).
Proof.
  induction body as [|c r IH]; intros [|k]; try reflexivity.
  simpl. apply IH.
Qed.

Lemma space_not_token c : isspace c = true -> is_bracket c || isdigit c = false.
Proof. destruct c as [[] [] [] [] [] [] [] []]; vm_compute; congruence. Qed.

Lemma score_tokenize_digit c r ds rest :
  isspace c = false -> is_bracket c = false -> isdigit c = true ->
  span isdigit (c :: r) = (ds, rest) ->
  _score_tokenize (c :: r) = ds :: _score_tokenize rest
  /\ ds <> [] /\ (length rest < length (c :: r))%nat.
Proof.
  intros Hs Hb Hd Hsp. unfold _score_tokenize.
  cbn [score_tokenize_go]. rewrite Hs, Hb, Hd, Hsp.
  pose proof (span_app _ _ _ _ Hsp) as E.
  simpl in Hsp. rewrite Hd in Hsp.
  destruct (span isdigit r) as [a b] eqn:Hr. injection Hsp as <- <-.
  pose proof (span_app _ _ _ _ Hr) as Er.
  split; [|split; [discriminate|]].
  - f_equal. rewrite score_tokenize_skip. f_equal.
    simpl length. rewrite Nat.sub_1_r. simpl Nat.pred. subst r.
    rewrite drop_app_length. reflexivity.
  - subst r. simpl. rewrite length_app. lia.
Qed.

Lemma score_tokenize_len n : forall body, (length body <= n)%nat ->
  concat (_score_tokenize body)
  = List.filter (fun c => is_bracket c || isdigit c) body
  /\ Forall (fun tk => (exists c, tk = [c] /\ is_bracket c = true)
                      \/ (tk <> [] /\ forallb isdigit tk = true))
       (_score_tokenize body).
Proof.
  induction n as [|n IH]; intros body Hn.
  - destruct body; [|simpl in Hn; lia]. split; [reflexivity | constructor].
  - destruct body as [|c r]; [split; [reflexivity | constructor]|].
    simpl in Hn.
    destruct (isspace c) eqn:Hs.
    { destruct (IH r ltac:(lia)) as [E F]. unfold _score_tokenize in *.
      cbn [score_tokenize_go List.filter]. rewrite Hs, (space_not_token c Hs).
      now split. }
    destruct (is_bracket c) eqn:Hb.
    { destruct (IH r ltac:(lia)) as [E F]. unfold _score_tokenize in *.
      cbn [score_tokenize_go List.filter]. rewrite Hs, Hb. cbn [orb concat app].
      split; [now rewrite E|]. constructor; [left; eauto | exact F]. }
    destruct (isdigit c) eqn:Hd.
    { destruct (span isdigit (c :: r)) as [ds rest] eqn:Hsp.
      destruct (score_tokenize_digit c r ds rest Hs Hb Hd Hsp) as (E1 & Hne & Hlen).
      simpl in Hlen.
      destruct (IH rest ltac:(lia)) as [E F].
      rewrite E1. cbn [concat]. rewrite E.
      pose proof (span_forallb _ _ _ _ Hsp) as Hall.
      rewrite (span_app _ _ _ _ Hsp), List.filter_app. split.
      - f_equal. clear -Hall. induction ds as [|d ds IHd]; [reflexivity|].
        simpl in *. apply andb_true_iff in Hall as [Hd Hall].
        rewrite Hd, orb_true_r. f_equal. now apply IHd.
      - constructor; [right; now split | exact F]. }
    destruct (IH r ltac:(lia)) as [E F]. unfold _score_tokenize in *.
    cbn [score_tokenize_go List.filter]. rewrite Hs, Hb, Hd. now split.
Qed.

(** X1.  The tokens of a layout payload, put end to end, are the payload
    with everything dropped that is neither a bracket, a brace, a bar nor a
    digit; every token is one of those five signs alone or a non-empty run
    of digits. *)
Theorem X1_tokens_keep_signs_and_digits (body : text) :
  concat (_score_tokenize body)
  = List.filter (fun c => is_bracket c || isdigit c) body
  /\ Forall (fun tk => (exists c, tk = [c] /\ is_bracket c = true)
                      \/ (tk <> [] /\ forallb isdigit tk = true))
       (_score_tokenize body).
Proof. exact (score_tokenize_len (length body) body (le_n _)). Qed.

End Tokenizer.

(** ** Group descriptors *)

Section Descriptors.

Import Cleaner Mess Props.

Lemma nospace_app a b : nospace (a ++ b) = nospace a && nospace b.
Proof. apply forallb_app. Qed.

Lemma digit_or_minus_nospace c :
  isdecimal c || eqc c "-" = true -> negb (isspace c) = true.
Proof. destruct c as [[] [] [] [] [] [] [] []]; vm_compute; congruence. Qed.

Lemma str_nospace n : nospace (str n) = true.
Proof.
  destruct (str_chars n) as [_ H]. unfold nospace.
  rewrite forallb_forall in *. intros c Hc. apply digit_or_minus_nospace. now apply H.
Qed.

Lemma join_nospace sep l :
  nospace sep = true -> Forall (fun e => nospace e = true) l ->
  nospace (join sep l) = true.
Proof.
  intros Hs. induction 1 as [|e l He Hl IH]; [reflexivity|].
  destruct l as [|e' l']; [exact He|].
  change (join sep (e :: e' :: l')) with (e ++ sep ++ join sep (e' :: l')).
  now rewrite !nospace_app, He, Hs, IH.
Qed.

Lemma wrapped_descriptor (o c : ascii) x :
  (o = "("%char /\ c = ")"%char) \/ (o = "{"%char /\ c = "}"%char) ->
  nospace x = true -> descriptor (o :: x ++ [c]).
Proof.
  intros Hoc Hx. split.
  - unfold is_group_text, endswith. simpl rev. rewrite rev_app_distr. simpl.
    destruct Hoc as [[-> ->]|[-> ->]]; reflexivity.
  - unfold nospace in *. simpl. rewrite forallb_app, Hx. simpl.
    destruct Hoc as [[-> ->]|[-> ->]]; reflexivity.
Qed.

Lemma setdefault_descriptor n s (m : gmap Z text) :
  descriptor s -> map_Forall (fun _ s => descriptor s) m ->
  map_Forall (fun _ s => descriptor s) (setdefault n s m).
Proof.
  intros Hs Hm i x. rewrite setdefault_lookup.
  destruct (m !! i) eqn:Hi.
  - intros [= <-]. exact (Hm i _ Hi).
  - destruct (decide (i = n)); [intros [= <-]; exact Hs | discriminate].
Qed.

Lemma setdefault_all_descriptor ns s (m : gmap Z text) :
  descriptor s -> map_Forall (fun _ s => descriptor s) m ->
  map_Forall (fun _ s => descriptor s) (setdefault_all ns s m).
Proof.
  intros Hs Hm i x. rewrite setdefault_all_lookup.
  destruct (m !! i) eqn:Hi.
  - intros [= <-]. exact (Hm i _ Hi).
  - destruct (decide (i ∈ ns)); [intros [= <-]; exact Hs | discriminate].
Qed.

Lemma flush_group_descriptor node pm bm s pm' bm' :
  Forall (fun e => nospace e = true) (elems node) ->
  map_Forall (fun _ s => descriptor s) pm ->
  map_Forall (fun _ s => descriptor s) bm ->
  flush_group node pm bm = (s, pm', bm') ->
  descriptor s
  /\ map_Forall (fun _ s => descriptor s) pm'
  /\ map_Forall (fun _ s => descriptor s) bm'.
Proof.
  intros He Hp Hb. unfold flush_group.
  pose proof (join_nospace "|" (elems node) eq_refl He) as Hj.
  destruct (eqt (ntype node) "("); intros [= <- <- <-].
  - assert (D : descriptor ("(" ++ join "|" (elems node) ++ ")")).
    { apply (wrapped_descriptor "(" ")"); auto. }
    split; [exact D|]. split; [|exact Hb]. now apply setdefault_all_descriptor.
  - assert (D : descriptor ("{" ++ join "|" (elems node) ++ "}")).
    { apply (wrapped_descriptor "{" "}"); auto. }
    split; [exact D|]. split; [exact Hp|]. now apply setdefault_all_descriptor.
Qed.

Lemma group_step_tidy st tk : tidy st -> tidy (group_step st tk).
Proof.
  intros (Hs & Hp & Hb). unfold group_step.
  destruct (eqt tk "(" || eqt tk "{").
  { split; [|split]; simpl; auto. }
  destruct (eqt tk ")" || eqt tk "}").
  { destruct st as [[|node rest] pm bm]; simpl in *; [now split|].
    destruct (flush_group node pm bm) as [[s pm'] bm'] eqn:Hf.
    inversion Hs as [|? ? Hnode Hrest]; subst.
    destruct (flush_group_descriptor _ _ _ _ _ _ Hnode Hp Hb Hf) as (Ds & Hp' & Hb').
    destruct rest as [|parent rest']; [split; [constructor | now split]|].
    inversion Hrest as [|? ? Hparent Hrest']; subst.
    split; [|now split]. simpl. constructor; [|exact Hrest'].
    simpl. apply Forall_app. split; [exact Hparent|].
    constructor; [exact (proj2 Ds) | constructor]. }
  destruct (eqt tk "|"); [now split|].
  destruct (py_int tk) as [n|]; [|now split].
  destruct st as [[|top rest] pm bm]; simpl in *.
  - split; [constructor|]. split; [|exact Hb].
    apply setdefault_descriptor; [|exact Hp].
    apply (wrapped_descriptor "(" ")"); auto. apply str_nospace.
  - inversion Hs as [|? ? Htop Hrest]; subst.
    split; [|now split]. constructor; [|exact Hrest]. simpl.
    apply Forall_app. split; [exact Htop|].
    constructor; [apply str_nospace | constructor].
Qed.

Lemma group_run_tidy toks : tidy (group_run toks).
Proof.
  unfold group_run.
  assert (H0 : tidy (mkGState [] ∅ ∅)).
  { split; [constructor|]. split; apply map_Forall_empty. }
  revert H0. generalize (mkGState [] ∅ ∅).
  induction toks as [|tk toks IH]; intros st Hst; [exact Hst|].
  simpl. apply IH. now apply group_step_tidy.
Qed.

Lemma group_map_tokens_descriptor toks vid :
  descriptor (gkey_of (_build_group_map_tokens toks) vid).
Proof.
  unfold gkey_of, _build_group_map_tokens. rewrite merge_maps_union.
  destruct (group_run_tidy toks) as (_ & Hp & Hb).
  destruct ((brace_map (group_run toks) ∪ paren_map (group_run toks)) !! vid)
    as [s|] eqn:E; simpl.
  - apply lookup_union_Some_raw in E as [E|[_ E]]; [exact (Hb _ _ E) | exact (Hp _ _ E)].
  - apply (wrapped_descriptor "(" ")"); auto. apply str_nospace.
Qed.

(** X2.  The group descriptor written at the end of a voice line, the one
    the layout gives the voice or the voice's own number in parentheses, is
    in parentheses or in braces and holds no whitespace: the decoder takes
    it as one field and accepts it as a group. *)
Theorem X2_group_key_is_descriptor (payload : text) (vid : Z) :
  is_group_text (gkey_of (_build_group_map payload) vid) = true
  /\ nospace (gkey_of (_build_group_map payload) vid) = true.
Proof. exact (group_map_tokens_descriptor (_score_tokenize payload) vid). Qed.

End Descriptors.

(** ** One voice line, written and read back *)

Section VoiceLine.

Import Cleaner Mess Props.

Lemma render_v_line_fields gm vid meta :
  render_v_line gm vid meta = join " " (v_line_fields gm vid meta).
Proof.
  unfold render_v_line, v_line_fields, compact_clef, compact_snm.
  destruct (replace " " "" (snm meta)) as [|s0 s'];
    (destruct (lower (strip (Cleaner.clef meta))) as [|c r]; [reflexivity|]);
    (destruct (clef_parts_re (c :: r)) as [[base octv]|];
     [destruct (take 4 base ++ octv); reflexivity
     | destruct (take 4 (c :: r)); reflexivity]).
Qed.

Lemma nospace_cons c s : nospace (c :: s) = negb (isspace c) && nospace s.
Proof. reflexivity. Qed.

Lemma strip_nospace s : nospace s = true -> strip s = s.
Proof.
  destruct s as [|c s]; [reflexivity|]. rewrite nospace_cons.
  intros [Hc Hs]%andb_true_iff. apply negb_true_iff in Hc.
  apply nonspace_strip; [exact Hc|].
  destruct (rev s) as [|d r] eqn:E; [reflexivity|].
  unfold nospace in Hs. rewrite forallb_forall in Hs. apply Hs.
  apply in_rev. rewrite E. now left.
Qed.

Lemma span_word w : forall rest,
  nospace w = true ->
  span (fun c => negb (isspace c)) (w ++ " "%char :: rest) = (w, " "%char :: rest).
Proof.
  induction w as [|c w IH]; intros rest H; [reflexivity|].
  rewrite nospace_cons in H. apply andb_true_iff in H as [Hc Hw].
  simpl. rewrite Hc, (IH rest Hw). reflexivity.
Qed.

Lemma span_word_end w :
  nospace w = true -> span (fun c => negb (isspace c)) w = (w, []).
Proof.
  induction w as [|c w IH]; intros H; [reflexivity|].
  rewrite nospace_cons in H. apply andb_true_iff in H as [Hc Hw].
  simpl. rewrite Hc, (IH Hw). reflexivity.
Qed.

Lemma split_ws_max_space n rest :
  split_ws_max n (" "%char :: rest) = split_ws_max n rest.
Proof. destruct n; reflexivity. Qed.

Lemma word_lstrip w rest : word w -> lstrip (w ++ rest) = w ++ rest.
Proof.
  intros [Hne Hw]. destruct w as [|c r]; [congruence|].
  rewrite nospace_cons in Hw. apply andb_true_iff in Hw as [Hc _].
  apply negb_true_iff in Hc. simpl. now rewrite Hc.
Qed.

(** Splitting a line of words joined by single spaces gives the words back,
    when the number of splits allows for all of them. *)
Lemma split_ws_max_join words : forall n,
  Forall word words -> (length words <= S n)%nat ->
  split_ws_max n (join " " words) = words.
Proof.
  induction words as [|w ws IH]; intros n Hw Hn.
  - destruct n; reflexivity.
  - inversion Hw as [|? ? Hw1 Hws]; subst.
    destruct ws as [|w' ws'].
    + cbn [join]. pose proof (word_lstrip w [] Hw1) as Hl.
      rewrite app_nil_r in Hl.
      destruct w as [|c r]; [now destruct Hw1|].
      destruct n as [|n]; cbn [split_ws_max]; rewrite Hl.
      * reflexivity.
      * rewrite (span_word_end (c :: r) (proj2 Hw1)). now destruct n.
    + change (join " " (w :: w' :: ws')) with (w ++ " "%char :: join " " (w' :: ws')).
      destruct n as [|n]; [simpl in Hn; lia|].
      pose proof (word_lstrip w (" "%char :: join " " (w' :: ws')) Hw1) as Hl.
      pose proof (span_word w (join " " (w' :: ws')) (proj2 Hw1)) as Hsp.
      destruct w as [|c r]; [now destruct Hw1|].
      cbn [split_ws_max]. rewrite Hl. cbn [app] in *. rewrite Hsp.
      rewrite split_ws_max_space.
      f_equal. apply IH; [exact Hws | simpl in *; lia].
Qed.

Lemma split_char_none sep s :
  forallb (fun c => negb (eqc c sep)) s = true -> split_char sep s = [s].
Proof.
  induction s as [|c s IH]; [reflexivity|]. simpl.
  intros [Hc Hs]%andb_true_iff. apply negb_true_iff in Hc.
  now rewrite Hc, (IH Hs).
Qed.

Lemma digit_or_minus_no c (x : ascii) :
  isdecimal x || eqc x "-" = false ->
  isdecimal c || eqc c "-" = true -> negb (eqc c x) = true.
Proof.
  intros Hx Hc. apply negb_true_iff. destruct (eqc c x) eqn:E; [|reflexivity].
  apply eqc_eq in E. subst. congruence.
Qed.

Lemma str_without (x : ascii) n :
  isdecimal x || eqc x "-" = false ->
  forallb (fun c => negb (eqc c x)) (str n) = true.
Proof.
  intros Hx. destruct (str_chars n) as [_ H].
  rewrite forallb_forall in *. intros c Hc. apply (digit_or_minus_no c x Hx). now apply H.
Qed.

Lemma str_word n : word (str n).
Proof. split; [apply str_chars | apply str_nospace]. Qed.

Lemma v_tag_word n : word ("V:" ++ str n).
Proof. split; [discriminate|]. simpl. apply str_nospace. Qed.

Lemma descriptor_word g : descriptor g -> word g.
Proof.
  intros [Hg Hn]. split; [|exact Hn]. intros ->. discriminate Hg.
Qed.

Lemma v_tag_id n : split_char ":" ("V:" ++ str n) = [txt "V"; str n].
Proof.
  change (txt "V:" ++ str n) with ("V"%char :: ":"%char :: str n).
  cbn [split_char]. change (eqc "V" ":") with false. change (eqc ":" ":") with true.
  cbn iota. now rewrite (split_char_none ":" (str n) (str_without ":" n eq_refl)).
Qed.

Lemma parse_fields w c t s (g : option text) n :
  split_char ":" w = [txt "V"; str n] -> startswith "V:" (join " " (w :: c :: t :: s :: match g with Some x => [x] | None => [] end)) = true ->
  Forall word (w :: c :: t :: s :: match g with Some x => [x] | None => [] end) ->
  parse_vdef (join " " (w :: c :: t :: s :: match g with Some x => [x] | None => [] end))
  = Some (mkVDef n (default c (CLEF_MAP (lower c))) (default 0 (py_int t)) s
            (match g with
             | Some x => if is_group_text x then Some x else None
             | None => None
             end)).
Proof.
  intros Hw Hsw Hall. unfold parse_vdef. rewrite Hsw. unfold v_fields.
  destruct g as [x|].
  - rewrite (split_ws_max_join _ 4 Hall) by (simpl; lia).
    rewrite Hw, py_int_str. cbn [default]. unfold id.
    assert (Hx : word x).
    { rewrite !Forall_cons in Hall. tauto. }
    rewrite (strip_nospace x (proj2 Hx)).
    destruct x as [|x0 x']; [now destruct Hx|]. reflexivity.
  - rewrite (split_ws_max_join _ 4 Hall) by (simpl; lia).
    rewrite (split_ws_max_join _ 3 Hall) by (simpl; lia).
    rewrite Hw, py_int_str. reflexivity.
Qed.

Lemma v_line_starts n rest : startswith "V:" (join " " (("V:" ++ str n) :: rest)) = true.
Proof. destruct rest; reflexivity. Qed.

(** X3.  A compact voice line with all its five fields is read back by the
    decoder as it was written: the voice id, the clef (the four-letter
    treble clef spelled out again), the transposition, the short name as
    the name, and the group descriptor. *)
Theorem X3_voice_line_read_back (gm : gmap Z text) (vid : Z) (meta : VMeta) :
  word (compact_clef meta) -> word (compact_snm meta) ->
  descriptor (gkey_of gm vid) ->
  parse_vdef (render_v_line gm vid meta)
  = Some (mkVDef vid
            (default (compact_clef meta) (CLEF_MAP (lower (compact_clef meta))))
            (Cleaner.transpose meta) (compact_snm meta) (Some (gkey_of gm vid))).
Proof.
  intros Hc Hs Hg. rewrite render_v_line_fields. unfold v_line_fields.
  destruct (compact_clef meta) as [|c0 c'] eqn:Ec; [now destruct Hc|].
  destruct (compact_snm meta) as [|s0 s'] eqn:Es; [now destruct Hs|].
  cbn [app].
  rewrite (parse_fields _ _ _ _ (Some (gkey_of gm vid)) vid (v_tag_id vid)
             (v_line_starts vid _)).
  - rewrite py_int_str, (proj1 Hg). reflexivity.
  - repeat constructor; auto using v_tag_word, str_word, descriptor_word;
      first [apply Hc | apply Hs | apply (descriptor_word _ Hg) | apply str_nospace
            | apply str_chars | discriminate | idtac].
Qed.

(** X4.  A compact voice line of a voice without a short name has four
    fields, and the decoder reads the group descriptor as the name of the
    voice: the voice is restored without a group. *)
Theorem X4_voice_line_without_name (gm : gmap Z text) (vid : Z) (meta : VMeta) :
  word (compact_clef meta) -> compact_snm meta = [] ->
  descriptor (gkey_of gm vid) ->
  parse_vdef (render_v_line gm vid meta)
  = Some (mkVDef vid
            (default (compact_clef meta) (CLEF_MAP (lower (compact_clef meta))))
            (Cleaner.transpose meta) (gkey_of gm vid) None).
Proof.
  intros Hc Hs Hg. rewrite render_v_line_fields. unfold v_line_fields.
  destruct (compact_clef meta) as [|c0 c'] eqn:Ec; [now destruct Hc|].
  rewrite Hs. cbn [app].
  rewrite (parse_fields _ _ _ _ None vid (v_tag_id vid) (v_line_starts vid _)).
  - rewrite py_int_str. reflexivity.
  - repeat constructor; auto using v_tag_word, str_word, descriptor_word;
      first [apply Hc | apply (descriptor_word _ Hg) | apply str_nospace
            | apply str_chars | discriminate | idtac].
Qed.

Lemma X3_voice_line_read_back_witness :
  parse_vdef (render_v_line ∅ 1 (mkVMeta "treble" 0 "Violin" "Vln."))
  = Some (mkVDef 1 "treble" 0 "Vln." (Some (txt "(1)"))).
Proof.
  refine (X3_voice_line_read_back ∅ 1 (mkVMeta "treble" 0 "Violin" "Vln.") _ _ _).
  - split; [discriminate | reflexivity].
  - split; [discriminate | reflexivity].
  - split; reflexivity.
Defined.

Lemma X4_voice_line_without_name_witness :
  parse_vdef (render_v_line ∅ 1 (mkVMeta "treble" 0 "Violin" ""))
  = Some (mkVDef 1 "treble" 0 "(1)" None).
Proof.
  refine (X4_voice_line_without_name ∅ 1 (mkVMeta "treble" 0 "Violin" "") _ _ _).
  - split; [discriminate | reflexivity].
  - reflexivity.
  - split; reflexivity.
Defined.

End VoiceLine.

(** ** The injector: what it leaves alone *)

Section InjectorFrame.

Import Cleaner.

Lemma line_parts_go_nomatch line : forall cur,
  re_search _V_TAGGED_SEG_RE line = None ->
  line_parts_go cur 0 line = match cur ++ line with [] => [] | x => [x] end.
Proof.
  induction line as [|c r IH]; intros cur H.
  - rewrite app_nil_r. now destruct cur.
  - cbn [re_search] in H. cbn [line_parts_go].
    destruct (_V_TAGGED_SEG_RE (c :: r)); [discriminate|].
    rewrite (IH _ H), <- app_assoc. reflexivity.
Qed.

Lemma re_search_head {A} (m : text -> option A) s : re_search m s = None -> m s = None.
Proof. destruct s; simpl; destruct (m _); congruence. Qed.

(** X5.  A first body line without any voice marker comes out of the
    injector as it went in, whatever tempo, meter, key and percussion
    overrides the header gave: none of them is written. *)
Theorem X5_no_marker_no_injection (line : text) (q_val m_val k_default : option text)
    (perc_inline : gmap Z Perc) :
  re_search _V_TAGGED_SEG_RE line = None ->
  _inject_first_line_tags line q_val m_val k_default perc_inline = Some line.
Proof.
  intros H. unfold _inject_first_line_tags, line_parts.
  rewrite (line_parts_go_nomatch line [] H). cbn [app].
  destruct line as [|c r]; [reflexivity|].
  cbn [inject_loop]. rewrite (re_search_head _ _ H).
  cbn. unfold render_parts. cbn. now rewrite !app_nil_r.
Qed.



Lemma X5_no_marker_no_injection_witness :
  _inject_first_line_tags "abc|def" (Some (txt "1/4=120")) (Some (txt "4/4"))
    (Some (txt "C")) ∅
  = Some (txt "abc|def").
Proof. apply X5_no_marker_no_injection. reflexivity. Defined.

End InjectorFrame.

(** ** Floating tempo tags *)

Section FloatingTempo.

Import Cleaner.

Lemma sub_go_nomatch (m : text -> option (text * nat)) s :
  re_search m s = None -> sub_go m 0 s = s.
Proof.
  induction s as [|c r IH]; intros H; [reflexivity|].
  cbn [re_search] in H. cbn [sub_go].
  destruct (m (c :: r)); [discriminate|]. now rewrite (IH H).
Qed.

Lemma replace_absent old new s :
  contains old s = false -> replace old new s = s.
Proof.
  unfold replace. induction s as [|c r IH]; intros H; [reflexivity|].
  rewrite contains_cons in H. apply orb_false_iff in H as [Hs Hc].
  cbn [replace_go]. rewrite Hs, (IH Hc). reflexivity.
Qed.

Lemma tag_re_starts x s : startswith ["["%char; x; ":"%char] s = false -> tag_re x s = None.
Proof. unfold tag_re. now intros ->. Qed.

Lemma startswith_contains p s : contains p s = false -> startswith p s = false.
Proof. destruct s; simpl; now intros [H _]%orb_false_iff. Qed.

Lemma contains_span p f s a b :
  span f s = (a, b) -> contains p s = false -> contains p b = false.
Proof.
  intros Hs Hc. pose proof (span_app _ _ _ _ Hs) as E.
  assert (D : b = drop (length a) s) by (rewrite E, drop_app_length; reflexivity).
  rewrite D. now apply contains_drop.
Qed.

Lemma no_tempo_tag_search s :
  contains "[Q:" s = false ->
  re_search protect_match s = None /\ re_search drop_q_match s = None.
Proof.
  induction s as [|c r IH]; intros H.
  - split; reflexivity.
  - pose proof H as H'. rewrite contains_cons in H'.
    apply orb_false_iff in H' as [Hs Hc]. destruct (IH Hc) as [IH1 IH2].
    cbn [re_search]. rewrite IH1, IH2.
    assert (Hd : drop_q_match (c :: r) = None).
    { unfold drop_q_match, _ANY_Q_INLINE_RE. now rewrite (tag_re_starts "Q" _ Hs). }
    assert (Hp : protect_match (c :: r) = None).
    { unfold protect_match, _V_INLINE_Q_RE.
      destruct (_V_TAGGED_SEG_RE (c :: r)) as [[ds n]|]; [|reflexivity].
      destruct (span isspace (drop n (c :: r))) as [w r1] eqn:Hsp.
      assert (Hr1 : contains "[Q:" r1 = false).
      { eapply contains_span; [exact Hsp|]. now apply contains_drop. }
      now rewrite (tag_re_starts "Q" _ (startswith_contains _ _ Hr1)). }
    now rewrite Hd, Hp.
Qed.

(** X7.  A line with no tempo tag opening and without the two placeholder
    words of the protection pass is left as it is by the tempo filter. *)
Theorem X7_no_tempo_tag_unchanged (line : text) :
  contains "[Q:" line = false ->
  contains "<QPROTECTED>" line = false ->
  contains "</QPROTECTED>" line = false ->
  _strip_floating_q line = line.
Proof.
  intros Hq Ho Hc. unfold _strip_floating_q, re_sub.
  destruct (no_tempo_tag_search line Hq) as [Hp Hd].
  rewrite (sub_go_nomatch _ _ Hp), (sub_go_nomatch _ _ Hd).
  now rewrite (replace_absent _ _ _ Ho), (replace_absent _ _ _ Hc).
Qed.

Lemma X7_no_tempo_tag_unchanged_witness :
  _strip_floating_q "[V:1]abc|" = txt "[V:1]abc|".
Proof. apply X7_no_tempo_tag_unchanged; reflexivity. Defined.

End FloatingTempo.

(** ** The short-name broadcast: what it keeps, what it fills *)

Section BroadcastFrame.

Import Cleaner Spec Props.

Lemma set_snm_same m : set_snm (snm m) m = m.
Proof. now destruct m. Qed.

Lemma dict_get_assign v l vm v' :
  dict_get v' (assign_snm v l vm)
  = if v' =? v then set_snm l <$> dict_get v' vm else dict_get v' vm.
Proof.
  induction vm as [|[k meta] vm IH]; simpl; [now destruct (v' =? v)|].
  destruct (Z.eqb_spec v k) as [->|Hvk]; simpl.
  - destruct (Z.eqb_spec v' k); reflexivity.
  - destruct (Z.eqb_spec v' k) as [->|Hv'k].
    + destruct (Z.eqb_spec k v); [congruence | reflexivity].
    + exact IH.
Qed.

Lemma keeps_voices_refl vm : keeps_voices vm vm.
Proof.
  split; [reflexivity|]. intros v m H. exists (snm m).
  now rewrite set_snm_same.
Qed.

Lemma keeps_voices_trans a b c :
  keeps_voices a b -> keeps_voices b c -> keeps_voices a c.
Proof.
  intros [Kab Hab] [Kbc Hbc]. split; [congruence|].
  intros v m Hm. destruct (Hab v m Hm) as (s & Hs & Hk).
  destruct (Hbc v _ Hs) as (s' & Hs' & Hk').
  exists s'. split; [exact Hs'|]. intros Hne.
  rewrite <- (Hk Hne). apply Hk'. simpl. now rewrite (Hk Hne).
Qed.

Lemma fill_step_keeps l vm v : keeps_voices vm (fill_step l vm v).
Proof.
  unfold fill_step. destruct (snm_of vm v) eqn:E; [|apply keeps_voices_refl].
  split; [apply keys_assign|]. intros v' m Hm. rewrite dict_get_assign.
  destruct (Z.eqb_spec v' v) as [->|Hne].
  - rewrite Hm. exists l. split; [reflexivity|].
    unfold snm_of in E. rewrite Hm in E. congruence.
  - exists (snm m). now rewrite set_snm_same.
Qed.

Lemma fill_group_keeps l vids : forall vm, keeps_voices vm (fill_group l vids vm).
Proof.
  unfold fill_group. induction vids as [|v vids IH]; intros vm; simpl.
  - apply keeps_voices_refl.
  - eapply keeps_voices_trans; [apply fill_step_keeps | apply IH].
Qed.

Lemma broadcast_group_keeps vm g : keeps_voices vm (broadcast_group vm g).
Proof.
  unfold broadcast_group. destruct (first_snm vm (sorted (snd g)));
    [apply keeps_voices_refl | apply fill_group_keeps].
Qed.

(** X8.  The short-name broadcast keeps the voices, their order, and for
    each voice the clef, the transposition and the full name; it changes a
    short name only where that was blank. *)
Theorem X8_broadcast_keeps_voices (vmeta : list (Z * VMeta)) (group_map : gmap Z text) :
  dict_keys (_broadcast_snm vmeta group_map) = dict_keys vmeta
  /\ forall v m, dict_get v vmeta = Some m ->
       exists s, dict_get v (_broadcast_snm vmeta group_map) = Some (set_snm s m)
                 /\ (strip (snm m) <> [] -> s = snm m).
Proof.
  unfold _broadcast_snm. change (keeps_voices vmeta
    (fold_left broadcast_group (build_g2vids vmeta group_map) vmeta)).
  generalize (build_g2vids vmeta group_map). intros G.
  assert (H : forall vm, keeps_voices vm (fold_left broadcast_group G vm)).
  { induction G as [|g G IH]; intros vm; simpl; [apply keeps_voices_refl|].
    eapply keeps_voices_trans; [apply broadcast_group_keeps | apply IH]. }
  apply H.
Qed.

(** *** Every voice is in the group of its key *)

Lemma g2_append_mono key v G k l :
  In (k, l) G -> exists l', In (k, l') (g2_append key v G) /\ incl l l'.
Proof.
  induction G as [|[k0 l0] G IH]; simpl; [contradiction|].
  intros [[= -> ->]|H].
  - destruct (eqt key k); simpl.
    + exists (l ++ [v]). split; [now left | now apply incl_appl].
    + exists l. split; [now left | apply incl_refl].
  - destruct (eqt key k0); simpl.
    + exists l. split; [now right | apply incl_refl].
    + destruct (IH H) as (l' & Hin & Hincl). exists l'. split; [now right | exact Hincl].
Qed.

Lemma g2_append_has key v G : exists l, In (key, l) (g2_append key v G) /\ In v l.
Proof.
  induction G as [|[k0 l0] G IH]; simpl.
  - exists [v]. split; now left.
  - destruct (eqt key k0) eqn:E; simpl.
    + apply eqt_eq in E. subst k0. exists (l0 ++ [v]). split; [now left|].
      apply in_app_iff. right. now left.
    + destruct IH as (l & Hin & Hv). exists l. split; [now right | exact Hv].
Qed.

Lemma g2_fold_complete (kf : Z -> text) ks : forall G,
  (forall v, In v ks -> exists l,
     In (kf v, l) (fold_left (fun g2 vid => g2_append (kf vid) vid g2) ks G) /\ In v l)
  /\ (forall k l, In (k, l) G -> exists l',
     In (k, l') (fold_left (fun g2 vid => g2_append (kf vid) vid g2) ks G) /\ incl l l').
Proof.
  induction ks as [|x ks IH]; intros G; simpl.
  - split; [intros v []|]. intros k l H. exists l. split; [exact H | apply incl_refl].
  - destruct (IH (g2_append (kf x) x G)) as [IH1 IH2]. split.
    + intros v [<-|Hv]; [|now apply IH1].
      destruct (g2_append_has (kf x) x G) as (l & Hin & Hx).
      destruct (IH2 _ _ Hin) as (l' & Hin' & Hincl).
      exists l'. split; [exact Hin' | now apply Hincl].
    + intros k l H. destruct (g2_append_mono (kf x) x G k l H) as (l1 & H1 & I1).
      destruct (IH2 _ _ H1) as (l2 & H2 & I2).
      exists l2. split; [exact H2|]. intros y Hy. apply I2, I1, Hy.
Qed.

Lemma distinct_keys_unique G k l1 l2 :
  distinct_keys G -> In (k, l1) G -> In (k, l2) G -> l1 = l2.
Proof.
  induction G as [|[k0 l0] G IH]; simpl; [contradiction|].
  intros [Hk Hd] [E1|H1] [E2|H2].
  - congruence.
  - exfalso. apply Hk. apply in_map_iff. exists (k, l2). split; [simpl; congruence | exact H2].
  - exfalso. apply Hk. apply in_map_iff. exists (k, l1). split; [simpl; congruence | exact H1].
  - now apply IH.
Qed.

Lemma build_g2vids_groups vmeta gm :
  let G := build_g2vids vmeta gm in
  distinct_keys G /\ keyed (gkey_of gm) G /\ within (dict_keys vmeta) G
  /\ forall v, In v (dict_keys vmeta) -> exists l, In (gkey_of gm v, l) G /\ In v l.
Proof.
  unfold build_g2vids.
  destruct (g2_fold_inv (gkey_of gm) (dict_keys vmeta) (dict_keys vmeta) [])
    as (Hd & Hk & Hw); simpl; auto; try (intros k l []).
  repeat split; auto.
  apply (g2_fold_complete (gkey_of gm) (dict_keys vmeta) []).
Qed.

Lemma broadcast_group_kept vm g v :
  snm_of vm v <> [] -> snm_of (broadcast_group vm g) v = snm_of vm v.
Proof.
  intros H. unfold broadcast_group.
  destruct (first_snm vm (sorted (snd g))); [reflexivity|].
  apply fill_group_kept. now right.
Qed.

Lemma fold_broadcast_kept G v : forall vm,
  snm_of vm v <> [] -> snm_of (fold_left broadcast_group G vm) v = snm_of vm v.
Proof.
  induction G as [|g G IH]; intros vm H; simpl; [reflexivity|].
  rewrite IH; rewrite broadcast_group_kept; auto.
Qed.

(** X9.  After the broadcast, a voice that shares its group key with a
    voice that had a short name has a short name. *)
Theorem X9_broadcast_fills_group (vmeta : list (Z * VMeta)) (group_map : gmap Z text)
    (v w : Z) :
  In v (dict_keys vmeta) -> In w (dict_keys vmeta) ->
  gkey_of group_map v = gkey_of group_map w ->
  snm_of vmeta w <> [] ->
  snm_of (_broadcast_snm vmeta group_map) v <> [].
Proof.
  intros Hv Hw Hkey Hname.
  destruct (build_g2vids_groups vmeta group_map) as (Hd & Hk & Hwi & Hc).
  destruct (build_g2vids_inv vmeta group_map) as [Ha Hin].
  destruct (Hc v Hv) as (lv & Glv & Vlv). destruct (Hc w Hw) as (lw & Glw & Wlw).
  rewrite <- Hkey in Glw.
  pose proof (distinct_keys_unique _ _ _ _ Hd Glv Glw) as <-.
  pose proof (fold_settles _ vmeta Ha Hin _ Glv) as Hs.
  fold (_broadcast_snm vmeta group_map) in Hs.
  pose proof (fold_broadcast_kept (build_g2vids vmeta group_map) w vmeta Hname) as Hkw.
  fold (_broadcast_snm vmeta group_map) in Hkw.
  destruct Hs as [Hs|Hs]; simpl in Hs.
  - exfalso. apply Hname. rewrite <- Hkw. now apply Hs.
  - now apply Hs.
Qed.

Lemma X9_broadcast_fills_group_witness :
  snm_of [(1, mkVMeta "treble" 0 "" "Vln."); (2, mkVMeta "bass" 0 "" "")] 1 <> []
  /\ snm_of (_broadcast_snm [(1, mkVMeta "treble" 0 "" "Vln."); (2, mkVMeta "bass" 0 "" "")]
               (_build_group_map "(1 2)")) 2 <> [].
Proof.
  split; [discriminate|].
  apply (X9_broadcast_fills_group _ (_build_group_map "(1 2)") 2 1).
  - right. now left.
  - now left.
  - reflexivity.
  - discriminate.
Defined.

(** *** Where a new short name comes from *)

Lemma first_snm_from vm vids :
  first_snm vm vids <> [] -> exists w, In w vids /\ snm_of vm w = first_snm vm vids.
Proof.
  induction vids as [|x vids IH]; simpl; [congruence|].
  destruct (snm_of vm x) eqn:E.
  - intros H. destruct (IH H) as (w & Hw & Ew). exists w. split; [now right | exact Ew].
  - intros _. exists x. split; [now left | exact E].
Qed.

Lemma fill_step_value l vm v :
  snm_of vm v = [] -> In v (dict_keys vm) -> snm_of (fill_step l vm v) v = strip l.
Proof.
  intros E Hin. unfold fill_step. rewrite E. now apply snm_of_assign_same.
Qed.

Lemma fill_group_value l vids v : forall vm,
  strip l <> [] -> snm_of vm v = [] -> In v vids -> In v (dict_keys vm) ->
  snm_of (fill_group l vids vm) v = strip l.
Proof.
  unfold fill_group. induction vids as [|x vids IH]; intros vm Hl E Hin Hk; simpl.
  - contradiction.
  - destruct (Z.eq_dec x v) as [->|Hne].
    + pose proof (fill_step_value l vm v E Hk) as Hf.
      change (snm_of (fill_group l vids (fill_step l vm v)) v = strip l).
      rewrite fill_group_kept; [exact Hf | right; now rewrite Hf].
    + destruct Hin as [Hx|Hin]; [contradiction|].
      apply IH; [exact Hl | | exact Hin | now rewrite fill_step_keys].
      rewrite fill_step_kept; [exact E | now left].
Qed.

Lemma broadcast_group_value vm g v :
  In v (dict_keys vm) ->
  snm_of (broadcast_group vm g) v = snm_of vm v
  \/ (snm_of vm v = [] /\ In v (snd g)
      /\ exists w, In w (snd g) /\ snm_of vm w = snm_of (broadcast_group vm g) v).
Proof.
  intros Hk.
  destruct (in_dec Z.eq_dec v (snd g)) as [Hv|Hv];
    [|left; now apply broadcast_group_other].
  destruct (snm_of vm v) as [|c0 r0] eqn:E;
    [|left; rewrite <- E; apply broadcast_group_kept; now rewrite E].
  unfold broadcast_group.
  destruct (first_snm vm (sorted (snd g))) as [|c l] eqn:F; [now left|].
  right. split; [reflexivity|]. split; [exact Hv|].
  destruct (first_snm_from vm (sorted (snd g))) as (w & Hw & Ew); [now rewrite F|].
  exists w. split; [now apply sorted_In|].
  rewrite fill_group_value; auto.
  - rewrite Ew, <- F. symmetry. apply first_snm_strip.
  - rewrite <- F, first_snm_strip, F. discriminate.
Qed.

Lemma fold_name_from_group (kf : Z -> text) vm0 G : forall vm,
  apart G -> keyed kf G -> within (dict_keys vm0) G ->
  dict_keys vm = dict_keys vm0 ->
  (forall g v, In g G -> In v (snd g) -> snm_of vm v = snm_of vm0 v) ->
  (forall v, name_from_group kf vm0 vm v) ->
  forall v, name_from_group kf vm0 (fold_left broadcast_group G vm) v.
Proof.
  induction G as [|[k l] G IH]; intros vm Ha Hk Hw Hkeys Hun Hr v; simpl; [apply Hr|].
  destruct Ha as [Hd Ha].
  apply IH.
  - exact Ha.
  - intros k' l' H. apply (Hk k' l'). now right.
  - intros k' l' H. apply (Hw k' l'). now right.
  - now rewrite broadcast_group_keys.
  - intros g' x Hg' Hx. rewrite broadcast_group_other.
    + apply (Hun g' x); [now right | exact Hx].
    + intros Hx'. exact (Hd g' Hg' x Hx' Hx).
  - intros x. destruct (in_dec Z.eq_dec x (dict_keys vm)) as [Hx|Hx].
    + destruct (broadcast_group_value vm (k, l) x Hx) as [E|(E & Hxl & w & Hwl & Ew)].
      * destruct (Hr x) as [R|R]; [left | right]; now rewrite E.
      * simpl in Hxl, Hwl. right.
        rewrite (Hun (k, l) x (or_introl eq_refl) Hxl) in E. split; [exact E|].
        exists w. split; [apply (Hw k l (or_introl eq_refl) w Hwl)|].
        split.
        -- rewrite (Hk k l (or_introl eq_refl) w Hwl).
           now rewrite (Hk k l (or_introl eq_refl) x Hxl).
        -- rewrite <- Ew. symmetry. apply (Hun (k, l) w (or_introl eq_refl) Hwl).
    + assert (E : snm_of (broadcast_group vm (k, l)) x = snm_of vm x).
      { destruct (in_dec Z.eq_dec x l) as [Hl|Hl].
        - exfalso. apply Hx. rewrite Hkeys. exact (Hw k l (or_introl eq_refl) x Hl).
        - now apply broadcast_group_other. }
      destruct (Hr x) as [R|R]; [left | right]; now rewrite E.
Qed.

(** X10.  A short name never crosses a group: after the broadcast a voice
    has the short name it had, or it had none and has the short name that
    a voice with the same group key had. *)
Theorem X10_broadcast_names_stay_in_group (vmeta : list (Z * VMeta))
    (group_map : gmap Z text) (v : Z) :
  snm_of (_broadcast_snm vmeta group_map) v = snm_of vmeta v
  \/ (snm_of vmeta v = []
      /\ exists w, In w (dict_keys vmeta)
                   /\ gkey_of group_map w = gkey_of group_map v
                   /\ snm_of vmeta w = snm_of (_broadcast_snm vmeta group_map) v).
Proof.
  destruct (build_g2vids_groups vmeta group_map) as (Hd & Hk & Hwi & _).
  destruct (build_g2vids_inv vmeta group_map) as [Ha _].
  apply (fold_name_from_group (gkey_of group_map) vmeta (build_g2vids vmeta group_map)
           vmeta Ha Hk Hwi eq_refl).
  - reflexivity.
  - intros x. now left.
Qed.

End BroadcastFrame.

(** ** Parts of a text *)

Section TextParts.



Lemma incl_rev_r (s : text) : incl s (rev s).
Proof. intros c Hc. now apply in_rev in Hc. Qed.


Lemma incl_take (n : nat) (s : text) : incl (take n s) s.
Proof.
  revert n. induction s as [|c s IH]; intros [|n]; simpl; intros x Hx;
    try contradiction.
  destruct Hx as [<-|Hx]; [now left | right; now apply (IH n)].
Qed.




Lemma re_search_at {A} (m : text -> option A) s x :
  re_search m s = Some x -> exists k, m (drop k s) = Some x.
Proof.
  induction s as [|c r IH]; simpl.
  - destruct (m []) eqn:E; [|discriminate]. intros [= <-]. now exists 0%nat.
  - destruct (m (c :: r)) eqn:E.
    + intros [= <-]. now exists 0%nat.
    + intros H. destruct (IH H) as [k Hk]. now exists (S k).
Qed.

End TextParts.

(** ** The clef of a parsed voice *)

Section ParsedClef.

Import Cleaner Props.

Lemma class_nospace (f : ascii -> bool) s :
  (forall c, f c = true -> isspace c = false) ->
  forallb f s = true -> nospace s = true.
Proof.
  intros Hf. unfold nospace. rewrite !forallb_forall. intros H c Hc.
  now rewrite (Hf c (H c Hc)).
Qed.

Lemma lower_az_not_space c : is_lower_az c = true -> isspace c = false.
Proof. destruct c as [[] [] [] [] [] [] [] []]; vm_compute; congruence. Qed.

Lemma letter_not_space c : is_ascii_letter c = true -> isspace c = false.
Proof. destruct c as [[] [] [] [] [] [] [] []]; vm_compute; congruence. Qed.

Lemma sign_not_space c : eqc c "+" || eqc c "-" = true -> isspace c = false.
Proof. destruct c as [[] [] [] [] [] [] [] []]; vm_compute; congruence. Qed.

Lemma lower_char_not_space c : isspace c = false -> isspace (lower_char c) = false.
Proof. destruct c as [[] [] [] [] [] [] [] []]; vm_compute; congruence. Qed.

Lemma lower_nospace s : nospace s = true -> nospace (lower s) = true.
Proof.
  unfold nospace, lower. rewrite !forallb_forall. intros H c Hc.
  apply in_map_iff in Hc as (d & <- & Hd). specialize (H d Hd).
  apply negb_true_iff in H. now rewrite (lower_char_not_space d H).
Qed.

Lemma lower_nil s : lower s = [] -> s = [].
Proof. now destruct s. Qed.

Lemma signed_digits_nospace sg ds :
  eqc sg "+" || eqc sg "-" = true -> forallb isdecimal ds = true ->
  nospace (sg :: ds) = true.
Proof.
  intros Hs Hd. rewrite nospace_cons, (sign_not_space sg Hs). simpl.
  exact (class_nospace _ _ decimal_not_space Hd).
Qed.

(** The two groups of the renderer's clef pattern: letters, and nothing or
    a sign with digits. *)
Lemma clef_parts_nospace s base octv :
  clef_parts_re s = Some (base, octv) ->
  base <> [] /\ nospace base = true /\ nospace octv = true.
Proof.
  unfold clef_parts_re. destruct (span is_lower_az s) as [b r] eqn:Hb.
  pose proof (class_nospace _ _ lower_az_not_space (span_forallb _ _ _ _ Hb)) as Hbase.
  destruct b as [|b0 b']; [discriminate|].
  assert (H0 : b0 :: b' <> [] /\ nospace (b0 :: b') = true /\ nospace [] = true)
    by (repeat split; [discriminate | exact Hbase]).
  destruct r as [|sg r']; [intros [= <- <-]; exact H0|].
  destruct (eqc sg "+" || eqc sg "-") eqn:Hsg.
  - destruct (span isdecimal r') as [ds tl] eqn:Hd.
    pose proof (signed_digits_nospace sg ds Hsg (span_forallb _ _ _ _ Hd)) as Ho.
    assert (H1 : b0 :: b' <> [] /\ nospace (b0 :: b') = true /\ nospace (sg :: ds) = true)
      by (repeat split; [discriminate | exact Hbase | exact Ho]).
    destruct ds as [|d0 ds']; [discriminate|].
    destruct tl as [|c tl']; [intros [= <- <-]; exact H1|].
    destruct tl'; [|discriminate].
    destruct (is_code 10 c); [intros [= <- <-]; exact H1 | discriminate].
  - destruct (is_code 10 sg); [|discriminate].
    destruct r'; [intros [= <- <-]; exact H0 | discriminate].
Qed.

(** The two groups of the parser's clef pattern. *)
Lemma clef_re_nospace s base octv :
  clef_re s = Some (base, octv) ->
  base <> [] /\ nospace (lower base ++ octv) = true.
Proof.
  unfold clef_re. destruct (startswith "clef" s); [|discriminate].
  destruct (span isspace (drop 4 s)) as [w r1].
  destruct r1 as [|c r2]; [discriminate|].
  destruct (eqc c "="); [|discriminate].
  destruct (span isspace r2) as [w3 r3].
  destruct (span is_ascii_letter r3) as [b r4] eqn:Hb.
  pose proof (class_nospace _ _ letter_not_space (span_forallb _ _ _ _ Hb)) as Hbase.
  apply lower_nospace in Hbase.
  destruct b as [|b0 b']; [discriminate|].
  destruct (span isspace r4) as [w5 r5].
  assert (H0 : b0 :: b' <> [] /\ nospace (lower (b0 :: b') ++ []) = true).
  { split; [discriminate|]. now rewrite app_nil_r. }
  destruct r5 as [|sg r6]; [intros [= <- <-]; exact H0|].
  destruct (eqc sg "+" || eqc sg "-") eqn:Hsg; [|intros [= <- <-]; exact H0].
  destruct (span isdecimal r6) as [ds tl] eqn:Hd.
  pose proof (signed_digits_nospace sg ds Hsg (span_forallb _ _ _ _ Hd)) as Ho.
  destruct ds as [|d0 ds']; intros [= <- <-]; [exact H0|].
  split; [discriminate|]. now rewrite nospace_app, Hbase, Ho.
Qed.

Lemma split_ws_go_nospace s : forall cur,
  nospace cur = true -> Forall (fun t => nospace t = true) (split_ws_go cur s).
Proof.
  induction s as [|c r IH]; intros cur Hc; simpl.
  - destruct cur; constructor; [exact Hc | constructor].
  - destruct (isspace c) eqn:E.
    + destruct cur; [apply IH; reflexivity|].
      constructor; [exact Hc | apply IH; reflexivity].
    + apply IH. rewrite nospace_app, Hc. simpl. now rewrite E.
Qed.

Lemma first_bare_token_nospace p : nospace (first_bare_token (split_ws p)) = true.
Proof.
  unfold first_bare_token.
  destruct (List.find _ (split_ws p)) as [t|] eqn:E; [|reflexivity].
  apply find_some in E as [Hin _].
  pose proof (split_ws_go_nospace p [] eq_refl) as H.
  rewrite List.Forall_forall in H. exact (H t Hin).
Qed.

Lemma parsed_clef_nospace p c t n s :
  _parse_v_payload p = (c, t, n, s) -> nospace c = true.
Proof.
  unfold _parse_v_payload. intros [= <- _ _ _].
  destruct (re_search clef_re p) as [[base octv]|] eqn:E.
  - apply re_search_at in E as [k Hk]. exact (proj2 (clef_re_nospace _ _ _ Hk)).
  - apply lower_nospace, first_bare_token_nospace.
Qed.

Lemma take_nil (n : nat) (s : text) : take (S n) s = [] -> s = [].
Proof. now destruct s. Qed.

Lemma compact_clef_nospace meta :
  nospace (Cleaner.clef meta) = true ->
  nospace (compact_clef meta) = true
  /\ (compact_clef meta = [] <-> Cleaner.clef meta = []).
Proof.
  intros H. unfold compact_clef. rewrite (strip_nospace _ H).
  pose proof (lower_nospace _ H) as Hl.
  destruct (Cleaner.clef meta) as [|c0 r0] eqn:Ec; [split; [reflexivity | tauto]|].
  change (lower (c0 :: r0)) with (lower_char c0 :: lower r0) in *.
  destruct (clef_parts_re (lower_char c0 :: lower r0)) as [[base octv]|] eqn:E.
  - destruct (clef_parts_nospace _ _ _ E) as (Hne & Hb & Ho). split.
    + rewrite nospace_app, Ho, andb_true_r.
      unfold nospace in *. rewrite forallb_forall in *. intros x Hx.
      apply Hb. exact (incl_take _ _ _ Hx).
    + split; [|discriminate]. intros H0. apply app_eq_nil in H0 as [H0 _].
      apply take_nil in H0. congruence.
  - split.
    + unfold nospace in *. rewrite forallb_forall in *. intros x Hx.
      apply Hl. exact (incl_take _ _ _ Hx).
    + split; discriminate.
Qed.

(** X11.  The clef field written for a voice that the collector parsed has
    no whitespace, and it is left out exactly when the voice line names no
    clef. *)
Theorem X11_parsed_clef_field (payload c : text) (t : Z) (n s : text) :
  _parse_v_payload payload = (c, t, n, s) ->
  nospace (compact_clef (mkVMeta c t n s)) = true
  /\ (compact_clef (mkVMeta c t n s) = [] <-> c = []).
Proof.
  intros H. apply (compact_clef_nospace (mkVMeta c t n s)).
  exact (parsed_clef_nospace _ _ _ _ _ H).
Qed.

Lemma X11_parsed_clef_field_witness :
  nospace (compact_clef (mkVMeta "treble+8" 0 "Violin" "Vln.")) = true
  /\ (compact_clef (mkVMeta "treble+8" 0 "Violin" "Vln.") = [] <-> txt "treble+8" = []).
Proof.
  apply (X11_parsed_clef_field
           ("clef=treble+8 nm=" ++ [dq] ++ "Violin" ++ [dq]
            ++ " snm=" ++ [dq] ++ "Vln." ++ [dq])).
  reflexivity.
Defined.

End ParsedClef.

(** ** The lines of the encoder's output *)

Section OutputLines.

Import Cleaner Props.




(** *** Joining and splitting lines *)



(** *** The voice lines *)








(** *** The voice metadata *)


















End OutputLines.

(** ** The decoder: when it returns *)

Section DecoderTotal.

Import Mess Props.






















(** *** Where the group of a voice comes from *)











(** With a superscript digit in a group descriptor the decoder raises. *)
Lemma decoder_raises_on_superscript :
  restore_text_simple ("V:1 treb 0 x (" ++ ["178"%char] ++ ")") = None.
Proof. reflexivity. Qed.

End DecoderTotal.

(** ** Group descriptors, read by the decoder *)

Section DescriptorMembers.

Import Cleaner Mess Spec Props.

Lemma str_decimal n : 0 <= n -> forallb isdecimal (str n) = true.
Proof.
  destruct n as [|p|p]; intros H; [reflexivity | | lia].
  rewrite str_pos. apply digits_decimal.
Qed.

Lemma decimal_isdigit s : forallb isdecimal s = true -> forallb isdigit s = true.
Proof.
  rewrite !forallb_forall. intros H c Hc. unfold isdigit. now rewrite (H c Hc).
Qed.

Lemma ints_of_strs ns : Forall (fun n => 0 <= n) ns -> ints_of (map str ns) = Some ns.
Proof.
  induction 1 as [|n ns Hn Hns IH]; [reflexivity|].
  cbn [map ints_of]. rewrite (strip_decimal _ (str_decimal n Hn)).
  assert (Hd : str_isdigit (str n) = true).
  { unfold str_isdigit. pose proof (proj1 (str_chars n)) as Hne.
    destruct (str n) eqn:E; [congruence|]. rewrite <- E.
    apply decimal_isdigit, str_decimal, Hn. }
  rewrite Hd, py_int_str, IH. reflexivity.
Qed.

Lemma split_char_piece sep l rest :
  forallb (fun c => negb (eqc c sep)) l = true ->
  split_char sep (l ++ sep :: rest) = l :: split_char sep rest.
Proof.
  induction l as [|c l IH]; intros H.
  - cbn [app split_char]. unfold eqc. now rewrite Ascii.eqb_refl.
  - simpl in H. apply andb_true_iff in H as [Hc Hl]. apply negb_true_iff in Hc.
    cbn [app split_char]. now rewrite Hc, (IH Hl).
Qed.

Lemma split_char_join sep ws :
  ws <> [] -> Forall (fun w => forallb (fun c => negb (eqc c sep)) w = true) ws ->
  split_char sep (join [sep] ws) = ws.
Proof.
  induction ws as [|w ws IH]; intros Hne H; [congruence|].
  inversion H as [|? ? Hw Hws]; subst.
  destruct ws as [|w' ws'].
  - cbn [join]. now apply split_char_none.
  - change (join [sep] (w :: w' :: ws')) with (w ++ sep :: join [sep] (w' :: ws')).
    rewrite (split_char_piece _ _ _ Hw). f_equal. apply IH; [discriminate | exact Hws].
Qed.

Lemma inner_of_wrap (o c : ascii) x : inner_of (o :: x ++ [c]) = x.
Proof. unfold inner_of. simpl. apply removelast_last. Qed.

Lemma endswith_wrap (o c : ascii) x : endswith [c] (o :: x ++ [c]) = true.
Proof.
  unfold endswith. simpl rev. rewrite rev_app_distr. simpl.
  unfold eqc. now rewrite Ascii.eqb_refl.
Qed.

Lemma ids_are_numbers its :
  forallb is_id its = true ->
  exists ns, its = map Num ns /\ Forall (fun n => 0 <= n) ns.
Proof.
  induction its as [|it its IH]; intros H; [exists []; split; [reflexivity | constructor]|].
  simpl in H. apply andb_true_iff in H as [Hi Hr].
  destruct (IH Hr) as (ns & -> & Hns).
  destruct it as [n|b l]; [|discriminate]. simpl in Hi.
  exists (n :: ns). split; [reflexivity|]. constructor; [lia | exact Hns].
Qed.

Lemma members_numbers ns : flat_map members (map Num ns) = ns.
Proof. induction ns as [|n ns IH]; simpl; [reflexivity | now rewrite IH]. Qed.

Lemma show_numbers ns : map show (map Num ns) = map str ns.
Proof. now rewrite map_map. Qed.

Lemma strs_nospace ns : Forall (fun e => nospace e = true) (map str ns).
Proof. induction ns; simpl; constructor; auto. apply str_nospace. Qed.

(** The numbers between the bars of a flat list are read back. *)
Lemma bar_list_ints ns :
  Forall (fun n => 0 <= n) ns ->
  ints_of (split_char "|" (strip (join "|" (map str ns)))) = Some ns.
Proof.
  intros H.
  rewrite (strip_nospace _ (join_nospace "|" _ eq_refl (strs_nospace ns))).
  destruct ns as [|n ns']; [reflexivity|].
  assert (E : split_char "|" (join "|" (map str (n :: ns'))) = map str (n :: ns')).
  { apply (split_char_join "|" (map str (n :: ns'))); [discriminate|].
    clear H. induction (n :: ns') as [|m ms IH]; simpl; constructor; auto.
    apply (str_without "|" m eq_refl). }
  rewrite E. now apply ints_of_strs.
Qed.

Lemma paren_text ns :
  show (Grp false (map Num ns)) = "("%char :: join "|" (map str ns) ++ [")"%char].
Proof. cbn [show opener closer]. now rewrite show_numbers. Qed.

Lemma paren_nospace ns : nospace ("("%char :: join "|" (map str ns) ++ [")"%char]) = true.
Proof.
  apply (wrapped_descriptor "(" ")"); auto.
  apply join_nospace; [reflexivity | apply strs_nospace].
Qed.

Lemma paren_members ns :
  Forall (fun n => 0 <= n) ns ->
  _group_members (show (Grp false (map Num ns))) = Some ns.
Proof.
  intros H. rewrite paren_text. unfold _group_members.
  rewrite (strip_nospace _ (paren_nospace ns)).
  rewrite (endswith_wrap "(" ")"). cbn [startswith eqc Ascii.eqb].
  change (eqc "(" "(") with true. cbn [andb].
  rewrite inner_of_wrap. now apply bar_list_ints.
Qed.

(** *** The arms of a brace group *)

Lemma split_pipes_run a : forall out buf lvl rest,
  forallb (fun c => negb (eqc c "(" || eqc c "{" || eqc c ")" || eqc c "}")
                    && (negb (eqc c "|") || negb (lvl =? 0))) a = true ->
  split_pipes_go out buf lvl (a ++ rest) = split_pipes_go out (buf ++ a) lvl rest.
Proof.
  induction a as [|c a IH]; intros out buf lvl rest H.
  - now rewrite app_nil_r.
  - simpl in H. apply andb_true_iff in H as [Hc Ha].
    apply andb_true_iff in Hc as [Hb Hp].
    apply negb_true_iff in Hb. rewrite !orb_false_iff in Hb.
    destruct Hb as [[[H1 H2] H3] H4].
    cbn [app split_pipes_go]. rewrite H1, H2, H3, H4. cbn [orb].
    assert (Hq : eqc c "|" && (lvl =? 0) = false).
    { destruct (eqc c "|"), (lvl =? 0); simpl in *; congruence. }
    rewrite Hq, (IH _ _ _ _ Ha), <- app_assoc. reflexivity.
Qed.

Lemma digit_or_minus_run lvl c :
  isdecimal c || eqc c "-" = true ->
  negb (eqc c "(" || eqc c "{" || eqc c ")" || eqc c "}")
  && (negb (eqc c "|") || negb (lvl =? 0)) = true.
Proof.
  intros H. assert (E : negb (eqc c "(" || eqc c "{" || eqc c ")" || eqc c "}") = true
                        /\ negb (eqc c "|") = true).
  { revert H. clear. destruct c as [[] [] [] [] [] [] [] []]; vm_compute; intuition congruence. }
  destruct E as [-> ->]. reflexivity.
Qed.

Lemma str_run lvl n :
  forallb (fun c => negb (eqc c "(" || eqc c "{" || eqc c ")" || eqc c "}")
                    && (negb (eqc c "|") || negb (lvl =? 0))) (str n) = true.
Proof.
  destruct (str_chars n) as [_ H]. rewrite forallb_forall in *.
  intros c Hc. apply digit_or_minus_run, H, Hc.
Qed.

Lemma bar_list_run ns :
  forallb (fun c => negb (eqc c "(" || eqc c "{" || eqc c ")" || eqc c "}")
                    && (negb (eqc c "|") || negb (1 =? 0))) (join "|" (map str ns)) = true.
Proof.
  induction ns as [|n ns IH]; [reflexivity|].
  destruct ns as [|n' ns']; [apply str_run|].
  change (join "|" (map str (n :: n' :: ns')))
    with (str n ++ "|"%char :: join "|" (map str (n' :: ns'))).
  rewrite forallb_app, str_run. cbn [forallb andb]. exact IH.
Qed.

(** The text of an arm goes into the buffer whole. *)
Lemma arm_text_whole a out buf rest :
  is_id a || flat_paren a = true ->
  split_pipes_go out buf 0 (show a ++ rest) = split_pipes_go out (buf ++ show a) 0 rest.
Proof.
  intros H. destruct a as [n|[] its]; try discriminate.
  - cbn [show]. apply split_pipes_run, str_run.
  - simpl in H. destruct (ids_are_numbers its H) as (ns & -> & Hns).
    rewrite paren_text. cbn [app split_pipes_go].
    change (eqc "(" "(" || eqc "(" "{") with true. cbn iota.
    rewrite <- app_assoc. rewrite (split_pipes_run _ _ _ _ _ (bar_list_run ns)).
    cbn [app split_pipes_go].
    change (eqc ")" "(" || eqc ")" "{") with false.
    change (eqc ")" ")" || eqc ")" "}") with true. cbn iota.
    change (0 + 1 - 1) with 0. now rewrite <- !app_assoc.
Qed.

Lemma arm_text_word a : is_id a || flat_paren a = true -> word (show a).
Proof.
  intros H. destruct a as [n|[] its]; try discriminate.
  - apply str_word.
  - simpl in H. destruct (ids_are_numbers its H) as (ns & -> & Hns).
    rewrite paren_text. split; [discriminate | apply paren_nospace].
Qed.

Lemma split_pipes_arms arms : forall out,
  forallb (fun a => is_id a || flat_paren a) arms = true -> arms <> [] ->
  split_pipes_go out [] 0 (join "|" (map show arms)) = out ++ map show arms.
Proof.
  induction arms as [|a arms IH]; intros out H Hne; [congruence|].
  simpl in H. apply andb_true_iff in H as [Ha Hr].
  destruct (arm_text_word a Ha) as [Hw1 Hw2].
  destruct arms as [|a' arms'].
  - cbn [map join]. rewrite <- (app_nil_r (show a)) at 1.
    rewrite (arm_text_whole a out [] [] Ha). cbn [app split_pipes_go].
    rewrite (strip_nospace _ Hw2). now destruct (show a).
  - change (join "|" (map show (a :: a' :: arms')))
      with (show a ++ "|"%char :: join "|" (map show (a' :: arms'))).
    rewrite (arm_text_whole a out [] _ Ha). cbn [app split_pipes_go].
    change (eqc "|" "(" || eqc "|" "{") with false.
    change (eqc "|" ")" || eqc "|" "}") with false.
    change (eqc "|" "|" && (0 =? 0)) with true. cbn iota.
    rewrite (strip_nospace _ Hw2).
    destruct (show a) as [|c0 r0] eqn:E; [congruence|].
    rewrite (IH (out ++ [c0 :: r0]) Hr) by discriminate.
    cbn [map]. rewrite E, <- app_assoc. reflexivity.
Qed.

Lemma str_not_paren n : startswith "(" (str n) = false.
Proof.
  pose proof (str_without "(" n eq_refl) as H.
  destruct (str n) as [|c r]; [reflexivity|].
  simpl in H. apply andb_true_iff in H as [Hc _]. apply negb_true_iff in Hc.
  change (txt "(") with ["("%char]. cbn [startswith].
  unfold eqc in *. rewrite Ascii.eqb_sym, Hc. reflexivity.
Qed.

Lemma arm_members_shown arms :
  forallb (fun a => is_id a || flat_paren a) arms = true ->
  arm_members (map show arms) = Some (flat_map members arms).
Proof.
  induction arms as [|a arms IH]; intros H; [reflexivity|].
  simpl in H. apply andb_true_iff in H as [Ha Hr].
  destruct (arm_text_word a Ha) as [Hw1 Hw2].
  cbn [map arm_members flat_map]. rewrite (strip_nospace _ Hw2), (IH Hr).
  destruct (show a) as [|c0 r0] eqn:E; [congruence|].
  clear Hw1. rewrite <- E in *. clear E c0 r0.
  destruct a as [n|[] its]; try discriminate.
  - cbn [show members]. rewrite str_not_paren. cbn [andb].
    unfold _split_top_level_pipes.
    rewrite <- (app_nil_r (str n)) at 1.
    rewrite (split_pipes_run _ _ _ _ _ (str_run 0 n)). cbn [app split_pipes_go].
    rewrite (strip_nospace _ (str_nospace n)).
    pose proof (proj1 (str_chars n)) as Hne.
    destruct (str n) as [|c0 r0] eqn:E; [congruence|]. rewrite <- E.
    simpl in Ha. rewrite orb_false_r in Ha. apply Z.leb_le in Ha.
    cbn [map]. rewrite (strip_nospace _ (str_nospace n)).
    change [str n] with (map str [n]).
    rewrite ints_of_strs by (constructor; [exact Ha | constructor]). reflexivity.
  - simpl in Ha. destruct (ids_are_numbers its Ha) as (ns & -> & Hns).
    rewrite paren_text, (endswith_wrap "(" ")").
    change (startswith "(" ("("%char :: join "|" (map str ns) ++ [")"%char])) with true.
    cbn [andb]. rewrite inner_of_wrap, (bar_list_ints ns Hns).
    cbn [members]. rewrite members_numbers. reflexivity.
Qed.

(** X14.  The decoder reads the members of a group descriptor of at most
    two levels as the encoder writes it: the voice ids, in the order they
    are written. *)
Theorem X14_members_read_back (it : Item) :
  two_level it = true -> _group_members (show it) = Some (members it).
Proof.
  intros H. destruct it as [n|[] its]; try discriminate.
  - simpl in H. cbn [show members opener closer]. unfold _group_members.
    assert (Hin : nospace (join "|" (map show its)) = true).
    { apply join_nospace; [reflexivity|].
      rewrite forallb_forall in H. apply List.Forall_forall. intros t Ht.
      apply in_map_iff in Ht as (a & <- & Ha). exact (proj2 (arm_text_word a (H a Ha))). }
    assert (Hn : nospace ("{"%char :: join "|" (map show its) ++ ["}"%char]) = true).
    { apply (wrapped_descriptor "{" "}"); auto. }
    change (txt "{" ++ join "|" (map show its) ++ txt "}")
      with ("{"%char :: join "|" (map show its) ++ ["}"%char]).
    rewrite (strip_nospace _ Hn), (endswith_wrap "{" "}").
    change (startswith "(" ("{"%char :: join "|" (map show its) ++ ["}"%char]))
      with false.
    change (startswith "{" ("{"%char :: join "|" (map show its) ++ ["}"%char]))
      with true.
    cbn [andb]. rewrite inner_of_wrap, (strip_nospace _ Hin).
    unfold _split_top_level_pipes.
    destruct its as [|a its']; [reflexivity|].
    rewrite (split_pipes_arms (a :: its') [] H) by discriminate.
    now apply arm_members_shown.
  - simpl in H. destruct (ids_are_numbers its H) as (ns & -> & Hns).
    cbn [members]. rewrite members_numbers. now apply paren_members.
Qed.

Lemma X14_members_read_back_witness :
  _group_members (show (Grp true [Grp false [Num 1; Num 2]; Num 3])) = Some [1; 2; 3].
Proof.
  apply (X14_members_read_back (Grp true [Grp false [Num 1; Num 2]; Num 3])).
  reflexivity.
Defined.

End DescriptorMembers.

(** ** The header fields picked by the encoder *)

Section Picked.

Import Cleaner.

Lemma lstrip_nil s : lstrip s = [] -> forallb isspace s = true.
Proof.
  induction s as [|c s IH]; simpl; [reflexivity|].
  destruct (isspace c); [exact IH | discriminate].
Qed.

Lemma strip_nil s : strip s = [] -> forallb isspace s = true.
Proof.
  unfold strip, rstrip. intros H.
  assert (H1 : lstrip (rev (lstrip s)) = []).
  { rewrite <- (rev_involutive (lstrip (rev (lstrip s)))), H. reflexivity. }
  apply lstrip_nil in H1.
  assert (H2 : forallb isspace (lstrip s) = true).
  { rewrite forallb_forall in *. intros c Hc. apply H1. now apply in_rev in Hc. }
  pose proof (lstrip_head s) as Hh.
  destruct (lstrip s) as [|c r] eqn:E; [now apply lstrip_nil|].
  simpl in H2. rewrite Hh in H2. discriminate.
Qed.

Lemma strip_last s l c : strip s = l ++ [c] -> isspace c = false.
Proof.
  unfold strip, rstrip. intros H.
  pose proof (lstrip_head (rev (lstrip s))) as Hh.
  assert (E : lstrip (rev (lstrip s)) = c :: rev l).
  { rewrite <- (rev_involutive (lstrip (rev (lstrip s)))), H.
    now rewrite rev_app_distr. }
  now rewrite E in Hh.
Qed.

(** A text that ends a stripped text and is not empty is not blank. *)
Lemma stripped_end s pre g :
  strip s = pre ++ g -> g <> [] -> strip g <> [].
Proof.
  intros H Hne Hs. apply strip_nil in Hs.
  destruct (exists_last Hne) as (g' & c & ->).
  rewrite app_assoc in H. apply strip_last in H.
  rewrite forallb_app in Hs. simpl in Hs. rewrite H in Hs.
  now rewrite andb_false_r in Hs.
Qed.

Lemma not_dot_space c : dot c = false -> isspace c = true.
Proof. destruct c as [[] [] [] [] [] [] [] []]; vm_compute; congruence. Qed.

Lemma span_stop f s a c tl : span f s = (a, c :: tl) -> f c = false.
Proof.
  revert a. induction s as [|x s IH]; intros a; simpl; [discriminate|].
  destruct (f x) eqn:Hx.
  - destruct (span f s) as [a' b'] eqn:E. intros [= <- ->]. now apply (IH a').
  - now intros [= <- <- <-].
Qed.

(** What a match up to the end leaves out: nothing, or one last whitespace
    character (a line feed). *)
Lemma dot_star_end_shape r g :
  dot_star_end r = Some g ->
  r = g \/ exists c, r = g ++ [c] /\ isspace c = true.
Proof.
  unfold dot_star_end. destruct (span dot r) as [a tl] eqn:E.
  pose proof (span_app _ _ _ _ E) as Hr.
  destruct tl as [|c [|c' tl']]; intros [= <-].
  - left. now rewrite app_nil_r in Hr.
  - right. exists c. split; [exact Hr|]. apply not_dot_space.
    exact (span_stop _ _ _ _ _ E).
Qed.

Lemma ws_dot_plus_end_shape r g :
  ws_dot_plus_end r = Some g ->
  g <> [] /\ exists pre, r = pre ++ g \/ exists c, r = pre ++ g ++ [c] /\ isspace c = true.
Proof.
  assert (Hd : forall r, dot_plus_end r = Some g ->
            g <> [] /\ exists pre, r = pre ++ g
                       \/ exists c, r = pre ++ g ++ [c] /\ isspace c = true).
  { intros r0. unfold dot_plus_end. destruct (dot_star_end r0) as [[|c g']|] eqn:E;
      try discriminate. intros [= <-]. split; [discriminate|]. exists [].
    destruct (dot_star_end_shape _ _ E) as [->|(x & -> & Hx)]; [now left|].
    right. now exists x. }
  induction r as [|c r IH]; simpl; [discriminate|].
  destruct (isspace c); [|apply Hd].
  destruct (ws_dot_plus_end r) as [g0|] eqn:E; [|apply Hd].
  intros [= ->]. destruct (IH eq_refl) as (Hne & pre & H). split; [exact Hne|].
  exists (c :: pre). destruct H as [->|(x & -> & Hx)]; [now left|].
  right. now exists x.
Qed.

Lemma field_value_not_blank x ln g : field_re x (strip ln) = Some g -> strip g <> [].
Proof.
  unfold field_re. destruct (startswith [x; ":"%char] (strip ln)); [|discriminate].
  intros H. apply ws_dot_plus_end_shape in H as (Hne & pre & H).
  pose proof (take_drop 2 (strip ln)) as Hs.
  destruct H as [H|(c & H & Hc)]; rewrite H in Hs.
  - rewrite app_assoc in Hs. symmetry in Hs. exact (stripped_end _ _ _ Hs Hne).
  - rewrite !app_assoc in Hs. symmetry in Hs. apply strip_last in Hs. congruence.
Qed.

Lemma score_value_not_blank ln g : _SCORE_RE (strip ln) = Some g -> strip g <> [].
Proof.
  unfold _SCORE_RE. destruct (startswith "%%score" (strip ln)); [|discriminate].
  destruct (span isspace (drop 7 (strip ln))) as [w rest] eqn:E.
  pose proof (span_app _ _ _ _ E) as Hd. pose proof (span_forallb _ _ _ _ E) as Hw.
  destruct w as [|w0 w']; [discriminate|]. intros H.
  pose proof (take_drop 7 (strip ln)) as Hs. rewrite Hd in Hs.
  apply dot_star_end_shape in H as [->|(c & -> & Hc)].
  - destruct g as [|g0 g'].
    + rewrite app_nil_r in Hs.
      destruct (exists_last (l := w0 :: w') ltac:(discriminate)) as (u & d & Eu).
      rewrite Eu in Hs, Hw. rewrite forallb_app in Hw. simpl in Hw.
      rewrite app_assoc in Hs. symmetry in Hs. apply strip_last in Hs.
      rewrite Hs in Hw. now rewrite andb_false_r in Hw.
    + rewrite app_assoc in Hs. symmetry in Hs.
      apply (stripped_end _ _ _ Hs). discriminate.
  - rewrite !app_assoc in Hs. symmetry in Hs. apply strip_last in Hs. congruence.
Qed.

Lemma pick_once_value header (rx : text -> option text) v :
  (forall ln g, rx (strip ln) = Some g -> strip g <> []) ->
  _pick_once header rx = Some v -> v <> [] /\ strip v = v.
Proof.
  intros Hrx. induction header as [|ln rest IH]; simpl; [discriminate|].
  destruct (rx (strip ln)) as [g|] eqn:E; [|exact IH].
  intros [= <-]. split; [exact (Hrx ln g E) | apply strip_idem].
Qed.

(** X15.  A tempo, a meter, a key or a layout picked from the header is
    never empty and has no whitespace around it: a field line with nothing
    after the colon gives no value. *)
Theorem X15_picked_value_not_blank (header : list text) (rx : text -> option text)
    (v : text) :
  rx = _Q_RE \/ rx = _M_RE \/ rx = _K_RE \/ rx = _SCORE_RE ->
  _pick_once header rx = Some v ->
  v <> [] /\ strip v = v.
Proof.
  intros Hrx. apply pick_once_value.
  destruct Hrx as [-> | [-> | [-> | ->]]]; intros ln g;
    first [apply field_value_not_blank | apply score_value_not_blank].
Qed.

Lemma X15_picked_value_not_blank_witness :
  txt "1/4=120" <> [] /\ strip "1/4=120" = txt "1/4=120".
Proof.
  apply (X15_picked_value_not_blank [txt "Q:"; txt "Q: 1/4=120 "] _Q_RE).
  - now left.
  - reflexivity.
Defined.

End Picked.

(** ** Bars in the layout directive *)

Section Bars.

Import Cleaner Props.

Lemma fold_skip_bars toks : forall st,
  fold_left group_step (List.filter (fun t => negb (eqt t "|")) toks) st
  = fold_left group_step toks st.
Proof.
  induction toks as [|tk toks IH]; intros st; [reflexivity|].
  cbn [List.filter fold_left]. destruct (eqt tk "|") eqn:E; cbn [negb].
  - apply eqt_eq in E. subst tk. rewrite IH. reflexivity.
  - cbn [fold_left]. apply IH.
Qed.

Lemma bar_class c :
  let d := if eqc c "|" then " "%char else c in
  (isdigit c = true -> d = c)
  /\ isdigit d = isdigit c
  /\ (eqc c "|" = false -> d = c)
  /\ (eqc c "|" = true -> isspace d = true /\ isspace c = false /\ is_bracket c = true).
Proof. destruct c as [[] [] [] [] [] [] [] []]; vm_compute; intuition congruence. Qed.

Lemma span_bars s : forall a b,
  span isdigit s = (a, b) ->
  span isdigit (bars_as_spaces s) = (a, bars_as_spaces b).
Proof.
  unfold bars_as_spaces.
  induction s as [|c s IH]; intros a b; cbn [span map].
  - now intros [= <- <-].
  - destruct (bar_class c) as (H1 & H2 & _). cbn zeta in H1, H2. rewrite H2.
    destruct (isdigit c) eqn:Hc.
    + destruct (span isdigit s) as [a' b'] eqn:E. intros [= <- <-].
      rewrite (IH a' b' eq_refl), (H1 eq_refl). reflexivity.
    + now intros [= <- <-].
Qed.

Lemma digits_not_bar ds : ds <> [] -> forallb isdigit ds = true -> eqt ds "|" = false.
Proof.
  destruct ds as [|c r]; [congruence|]. intros _ H. simpl in H.
  apply andb_true_iff in H as [Hc _].
  change (txt "|") with ["|"%char]. cbn [eqt].
  assert (E : eqc c "|" = false).
  { revert Hc. clear. destruct c as [[] [] [] [] [] [] [] []]; vm_compute; congruence. }
  now rewrite E.
Qed.

Lemma tokenize_bars n : forall body, (length body <= n)%nat ->
  _score_tokenize (bars_as_spaces body)
  = List.filter (fun t => negb (eqt t "|")) (_score_tokenize body).
Proof.
  induction n as [|n IH]; intros body Hn.
  - destruct body; [reflexivity | simpl in Hn; lia].
  - destruct body as [|c r]; [reflexivity|]. simpl in Hn.
    destruct (bar_class c) as (H1 & H2 & H3 & H4). cbn zeta in H1, H2, H3, H4.
    assert (Hr : _score_tokenize (bars_as_spaces r)
                 = List.filter (fun t => negb (eqt t "|")) (_score_tokenize r))
      by (apply IH; lia).
    destruct (eqc c "|") eqn:Ebar.
    { destruct (H4 eq_refl) as (Hsp & Hns & Hbr).
      unfold _score_tokenize in *. unfold bars_as_spaces in *.
      cbn [map score_tokenize_go]. rewrite Ebar, Hns, Hbr.
      change (isspace " ") with true. cbn iota.
      apply eqc_eq in Ebar. subst c. cbn [List.filter]. exact Hr. }
    assert (Hmap : bars_as_spaces (c :: r) = c :: bars_as_spaces r).
    { unfold bars_as_spaces. cbn [map]. now rewrite Ebar. }
    rewrite Hmap.
    destruct (isspace c) eqn:Hs.
    { unfold _score_tokenize in *. cbn [score_tokenize_go]. now rewrite Hs. }
    destruct (is_bracket c) eqn:Hb.
    { unfold _score_tokenize in *. cbn [score_tokenize_go]. rewrite Hs, Hb.
      cbn [List.filter]. change (txt "|") with ["|"%char]. cbn [eqt].
      rewrite Ebar. cbn [andb negb]. now rewrite Hr. }
    destruct (isdigit c) eqn:Hd.
    { destruct (span isdigit (c :: r)) as [ds rest] eqn:Hsp.
      destruct (score_tokenize_digit c r ds rest Hs Hb Hd Hsp) as (E1 & Hne & Hlen).
      pose proof (span_bars _ _ _ Hsp) as Hsp'. rewrite Hmap in Hsp'.
      destruct (score_tokenize_digit c _ ds _ Hs Hb Hd Hsp') as (E2 & _ & _).
      rewrite E1, E2. cbn [List.filter].
      rewrite (digits_not_bar ds Hne (span_forallb _ _ _ _ Hsp)). cbn [negb].
      f_equal. apply IH. simpl in Hlen. lia. }
    unfold _score_tokenize in *. cbn [score_tokenize_go]. now rewrite Hs, Hb, Hd.
Qed.

(** X16.  The bars of a layout directive are separators and nothing more
    to the encoder: with every bar replaced by a space the directive gives
    the same group map. *)
Theorem X16_bars_are_separators (payload : text) :
  _build_group_map (bars_as_spaces payload) = _build_group_map payload.
Proof.
  unfold _build_group_map, _build_group_map_tokens, group_run.
  rewrite (tokenize_bars (length payload) payload (le_n _)).
  now rewrite fold_skip_bars.
Qed.

End Bars.

(** ** The collector of voice lines *)

Section Collector.

Import Cleaner.

Lemma dict_set_keys {V} k (v : V) d x :
  In x (dict_keys (dict_set k v d)) <-> x = k \/ In x (dict_keys d).
Proof.
  unfold dict_keys. induction d as [|[k' v'] d IH]; simpl; [intuition|].
  destruct (Z.eqb_spec k k') as [->|Hne]; simpl; [intuition|].
  rewrite IH. intuition.
Qed.

Lemma perc_append_K_dom lv v p vid :
  is_Some (perc_append_K lv v p !! vid) -> vid = lv \/ is_Some (p !! vid).
Proof.
  unfold perc_append_K. destruct (decide (vid = lv)) as [->|Hne]; [now left|].
  rewrite lookup_insert_ne by congruence. now right.
Qed.

Lemma perc_append_I_dom lv v p vid :
  is_Some (perc_append_I lv v p !! vid) -> vid = lv \/ is_Some (p !! vid).
Proof.
  unfold perc_append_I. destruct (decide (vid = lv)) as [->|Hne]; [now left|].
  rewrite lookup_insert_ne by congruence. now right.
Qed.

Lemma collect_loop_declared header : forall vmeta perc lv lp vm' perc',
  (forall vid, is_Some (perc !! vid) -> In vid (dict_keys vmeta)) ->
  (forall v, lv = Some v -> In v (dict_keys vmeta)) ->
  collect_loop vmeta perc lv lp header = Some (vm', perc') ->
  forall vid, is_Some (perc' !! vid) -> In vid (dict_keys vm').
Proof.
  induction header as [|ln rest IH]; intros vmeta perc lv lp vm' perc' Hp Hl;
    cbn [collect_loop].
  - now intros [= <- <-].
  - destruct (_V_RE (strip ln)) as [[g1 g2]|].
    + destruct (py_int g1) as [vid|]; [|discriminate]. cbn [mbind option_bind].
      destruct (_parse_v_payload (strip g2)) as [[[c t] n] s].
      apply IH.
      * intros x Hx. apply dict_set_keys. right. now apply Hp.
      * intros x [= <-]. apply dict_set_keys. now left.
    + assert (HK : forall v t0, lv = Some v ->
                forall x, is_Some (perc_append_K v t0 perc !! x) -> In x (dict_keys vmeta)).
      { intros v t0 Hv x Hx. apply perc_append_K_dom in Hx as [->|Hx]; auto. }
      assert (HI : forall v t0, lv = Some v ->
                forall x, is_Some (perc_append_I v t0 perc !! x) -> In x (dict_keys vmeta)).
      { intros v t0 Hv x Hx. apply perc_append_I_dom in Hx as [->|Hx]; auto. }
      destruct (_K_RE (strip ln)), lv as [v|], lp;
        repeat match goal with
               | |- context [if ?b then _ else _] => destruct b
               end;
        first [ apply IH; [exact Hp | exact Hl]
              | apply IH; [exact (HK v _ eq_refl) | exact Hl]
              | apply IH; [exact (HI v _ eq_refl) | exact Hl] ].
Qed.

(** X17.  A percussion override is recorded for declared voices only: the
    collector never keeps a key line that says none, or a percussion-map
    line, under an id that has no voice line. *)
Theorem X17_overrides_of_declared_voices (header : list text)
    (vmeta : list (Z * VMeta)) (perc : gmap Z Perc) (vid : Z) :
  _collect_v_and_percmap header = Some (vmeta, perc) ->
  is_Some (perc !! vid) ->
  In vid (dict_keys vmeta).
Proof.
  unfold _collect_v_and_percmap. intros H.
  apply (collect_loop_declared header [] ∅ None false vmeta perc); [| |exact H].
  - intros x Hx. rewrite lookup_empty in Hx. now destruct Hx.
  - discriminate.
Qed.

Lemma X17_overrides_of_declared_voices_witness :
  In 1 (dict_keys [(1, mkVMeta "perc" 0 "" "")]).
Proof.
  apply (X17_overrides_of_declared_voices [txt "K:none"; txt "V:1 perc"; txt "K:none"]
           [(1, mkVMeta "perc" 0 "" "")]
           (perc_append_K 1 "none" ∅) 1).
  - reflexivity.
  - eexists. reflexivity.
Defined.

End Collector.

(** ** The order of the voice lines *)

Section HeaderOrder.

Import Cleaner Props.

Lemma insert_sorted_perm x l : Permutation (insert_sorted x l) (x :: l).
Proof.
  induction l as [|y l IH]; simpl; [reflexivity|].
  destruct (x <? y); [reflexivity|].
  rewrite IH. apply perm_swap.
Qed.

Lemma sorted_perm l : Permutation (sorted l) l.
Proof.
  induction l as [|x l IH]; simpl; [reflexivity|].
  rewrite insert_sorted_perm. now constructor.
Qed.

Lemma insert_sorted_ascending x l : ascending l -> ascending (insert_sorted x l).
Proof.
  induction l as [|y l IH]; simpl; [intros _; split; [constructor | exact I]|].
  intros [Hy Hl]. destruct (Z.ltb_spec x y) as [Hlt|Hge].
  - split; [|split; assumption]. constructor; [lia|].
    eapply List.Forall_impl; [|exact Hy]. intros z Hz. simpl in Hz. lia.
  - split; [|now apply IH].
    apply List.Forall_forall. intros z Hz. apply insert_sorted_In in Hz as [->|Hz]; [lia|].
    rewrite List.Forall_forall in Hy. now apply Hy.
Qed.

Lemma sorted_ascending l : ascending (sorted l).
Proof.
  induction l as [|x l IH]; simpl; [exact I | now apply insert_sorted_ascending].
Qed.

Lemma dict_get_key {V} k (d : list (Z * V)) :
  In k (dict_keys d) -> exists v, dict_get k d = Some v.
Proof.
  unfold dict_keys. induction d as [|[k' v'] d IH]; simpl; [contradiction|].
  destruct (Z.eqb_spec k k') as [->|Hne]; [eauto|].
  intros [E|H]; [congruence | now apply IH].
Qed.

(** X18.  The compact header has one line for every declared voice, in
    ascending order of the voice ids, whatever the order of the
    declarations. *)
Theorem X18_voice_lines_ascending (vmeta : list (Z * VMeta)) (group_map : gmap Z text) :
  exists ks,
    Permutation ks (dict_keys vmeta)
    /\ ascending ks
    /\ Forall2 (fun vid ln => exists meta,
                  dict_get vid vmeta = Some meta
                  /\ ln = render_v_line group_map vid meta)
         ks (_render_tagged_v_header vmeta group_map).
Proof.
  exists (sorted (dict_keys vmeta)). split; [apply sorted_perm|].
  split; [apply sorted_ascending|].
  unfold _render_tagged_v_header.
  assert (H : forall k, In k (sorted (dict_keys vmeta)) -> In k (dict_keys vmeta))
    by (intros k; apply sorted_In).
  induction (sorted (dict_keys vmeta)) as [|k ks IH]; [constructor|].
  cbn [omap list_omap]. destruct (dict_get_key k vmeta (H k (or_introl eq_refl))) as [m Hm].
  rewrite Hm. cbn [fmap option_fmap option_map].
  constructor; [eauto|]. apply IH. intros x Hx. apply H. now right.
Qed.

End HeaderOrder.

(** ** The probe, field by field *)

Section ProbeFields.

Import Mess Spec.

(** X19.  The three results of the probe do not depend on one another,
    and stopping at the first line where all three are known changes
    nothing: the tempo and the meter are the first tag of the first body
    line that has one, the key is given by the first body line whose first
    key tag does not say none. *)
Theorem X19_probe_field_by_field (body_lines : list text) :
  probe_qmk_from_body body_lines
  = (first_some (line_tag "Q") body_lines,
     first_some (line_tag "M") body_lines,
     first_some line_key body_lines).
Proof. apply probe_by_lines. Qed.

End ProbeFields.

(** ** A restored group, encoded again *)

Section GroupAgain.

Import Cleaner Mess Spec Props.

Lemma span_digits a rest :
  forallb isdigit a = true ->
  match rest with [] => True | c :: _ => isdigit c = false end ->
  span isdigit (a ++ rest) = (a, rest).
Proof.
  intros Ha Hr. induction a as [|c a IH]; simpl.
  - destruct rest as [|d rest]; [reflexivity|]. simpl. now rewrite Hr.
  - simpl in Ha. apply andb_true_iff in Ha as [Hc Ha]. now rewrite Hc, (IH Ha).
Qed.

Lemma decimal_token_start c :
  isdecimal c = true -> isspace c = false /\ is_bracket c = false /\ isdigit c = true.
Proof. destruct c as [[] [] [] [] [] [] [] []]; vm_compute; intuition congruence. Qed.

Lemma tokenize_number n rest :
  0 <= n ->
  match rest with [] => True | c :: _ => isdigit c = false end ->
  _score_tokenize (str n ++ rest) = str n :: _score_tokenize rest.
Proof.
  intros Hn Hr. pose proof (str_decimal n Hn) as Hd.
  pose proof (span_digits (str n) rest (decimal_isdigit _ Hd) Hr) as Hsp.
  pose proof (proj1 (str_chars n)) as Hne.
  destruct (str n) as [|c r]; [congruence|].
  simpl in Hd. apply andb_true_iff in Hd as [Hc _].
  destruct (decimal_token_start c Hc) as (H1 & H2 & H3).
  exact (proj1 (score_tokenize_digit c (r ++ rest) (c :: r) rest H1 H2 H3 Hsp)).
Qed.

Lemma tokenize_space rest : _score_tokenize (" "%char :: rest) = _score_tokenize rest.
Proof. reflexivity. Qed.

Lemma tokenize_numbers ns : forall tail,
  Forall (fun n => 0 <= n) ns -> ns <> [] ->
  _score_tokenize (join " " (map str ns) ++ " "%char :: tail)
  = map str ns ++ _score_tokenize tail.
Proof.
  induction ns as [|n ns IH]; intros tail H Hne; [congruence|].
  inversion H as [|? ? Hn Hns]; subst.
  destruct ns as [|n' ns'].
  - cbn [map join app]. rewrite tokenize_number by (auto; reflexivity).
    now rewrite tokenize_space.
  - change (join " " (map str (n :: n' :: ns')))
      with (str n ++ " "%char :: join " " (map str (n' :: ns'))).
    rewrite <- app_assoc. cbn [app].
    rewrite tokenize_number by (auto; reflexivity).
    rewrite tokenize_space, (IH tail Hns) by discriminate. reflexivity.
Qed.

Lemma group_step_number n t e s rest pm bm :
  group_step (mkGState (mkNode t e s :: rest) pm bm) (str n)
  = mkGState (mkNode t (e ++ [str n]) (s ∪ {[n]}) :: rest) pm bm.
Proof.
  destruct (num_not_bracket (str n) n (py_int_str n)) as (H1 & H2 & H3).
  unfold group_step. now rewrite H1, H2, H3, py_int_str.
Qed.

Lemma fold_numbers ns : forall t e (s : gset Z) rest pm bm,
  fold_left group_step (map str ns) (mkGState (mkNode t e s :: rest) pm bm)
  = mkGState (mkNode t (e ++ map str ns) (s ∪ list_to_set ns) :: rest) pm bm.
Proof.
  induction ns as [|n ns IH]; intros t e s rest pm bm; cbn [map fold_left].
  - f_equal. f_equal. apply node_eq; [reflexivity | now rewrite app_nil_r | set_solver].
  - rewrite group_step_number, IH. f_equal. f_equal.
    apply node_eq; [reflexivity | now rewrite <- app_assoc | set_solver].
Qed.

Lemma norm_paren_shown ns :
  Forall (fun n => 0 <= n) ns ->
  _norm_paren_token (show (Grp false (map Num ns)))
  = Some (match ns with [] => txt "( )" | _ => render_nums ns end).
Proof.
  intros H. rewrite paren_text. unfold _norm_paren_token.
  rewrite (strip_nospace _ (paren_nospace ns)), inner_of_wrap, (bar_list_ints ns H).
  cbn [mbind option_bind]. now destruct ns.
Qed.

Lemma single_number_map n :
  0 <= n -> _build_group_map (str n) !! n = Some ("(" ++ str n ++ ")").
Proof.
  intros Hn. unfold _build_group_map, _build_group_map_tokens, group_run.
  assert (Ht : _score_tokenize (str n) = [str n]).
  { rewrite <- (app_nil_r (str n)) at 1. now rewrite (tokenize_number n [] Hn I). }
  rewrite Ht. cbn [fold_left]. destruct (num_not_bracket (str n) n (py_int_str n)) as (H1 & H2 & H3).
  unfold group_step. rewrite H1, H2, H3, py_int_str. cbn [stack paren_map brace_map].
  rewrite merge_maps_union, (left_id_L ∅ (∪)), setdefault_lookup, lookup_empty.
  now rewrite decide_True.
Qed.

Lemma paren_list_map ns n :
  Forall (fun n => 0 <= n) ns -> ns <> [] -> In n ns ->
  _build_group_map ("( " ++ join " " (map str ns) ++ " )") !! n
  = Some ("(" ++ join "|" (map str ns) ++ ")").
Proof.
  intros H Hne Hin. unfold _build_group_map, _build_group_map_tokens, group_run.
  change ("( " ++ join " " (map str ns) ++ " )")
    with ("("%char :: " "%char :: join " " (map str ns) ++ " "%char :: txt ")").
  assert (Ht : _score_tokenize
                 ("("%char :: " "%char :: join " " (map str ns) ++ " "%char :: txt ")")
               = txt "(" :: map str ns ++ [txt ")"]).
  { change (_score_tokenize
              ("("%char :: " "%char :: join " " (map str ns) ++ " "%char :: txt ")"))
      with (txt "(" :: _score_tokenize (join " " (map str ns) ++ " "%char :: txt ")")).
    now rewrite (tokenize_numbers ns _ H Hne). }
  rewrite Ht. cbn [fold_left]. rewrite fold_left_app.
  change (group_step {| stack := []; paren_map := ∅; brace_map := ∅ |} "(")
    with (mkGState [mkNode "(" [] ∅] ∅ ∅).
  rewrite fold_numbers. cbn [fold_left app].
  change (group_step ?st ")") with
    (let '(s, pm, bm) := flush_group (mkNode "(" (map str ns) (∅ ∪ list_to_set ns)) ∅ ∅ in
     mkGState [] pm bm).
  unfold flush_group. change (eqt (ntype (mkNode "(" (map str ns) (∅ ∪ list_to_set ns))) "(")
    with true. cbn iota beta. cbn [stack paren_map brace_map elems nums].
  rewrite merge_maps_union, (left_id_L ∅ (∪)), setdefault_all_lookup, lookup_empty.
  rewrite decide_True; [reflexivity|].
  apply elem_of_union_r, elem_of_list_to_set, list_elem_of_In, Hin.
Qed.

(** X20.  A parenthesis group of voice ids that the decoder writes into
    the restored layout line is parsed by the encoder into the descriptor
    it came from, for every voice of the group. *)
Theorem X20_restored_group_encodes_back (ns : list Z) :
  Forall (fun n => 0 <= n) ns ->
  exists t,
    _norm_paren_token (show (Grp false (map Num ns))) = Some t
    /\ forall n, In n ns ->
         _build_group_map t !! n = Some (show (Grp false (map Num ns))).
Proof.
  intros H. rewrite (norm_paren_shown ns H). eexists. split; [reflexivity|].
  intros n Hin. rewrite paren_text.
  destruct ns as [|n1 [|n2 ns']]; [destruct Hin| |].
  - destruct Hin as [<-|[]]. inversion H; subst.
    cbn [render_nums map join]. now apply single_number_map.
  - apply (paren_list_map (n1 :: n2 :: ns') n H); [discriminate | exact Hin].
Qed.

Lemma X20_restored_group_encodes_back_witness :
  exists t,
    _norm_paren_token (show (Grp false (map Num [5; 7; 8]))) = Some t
    /\ forall n, In n [5; 7; 8] ->
         _build_group_map t !! n = Some (show (Grp false (map Num [5; 7; 8]))).
Proof.
  apply (X20_restored_group_encodes_back [5; 7; 8]).
  repeat constructor; lia.
Defined.

End GroupAgain.
